(** * ep_image_upload: the server-side hooks of [index.js]

    A shallow embedding of the Etherpad image-upload plugin: the
    [clientVars] hook and the POST upload handler registered by
    [expressConfigure], with the event handlers it installs on the
    multipart parser, followed by the properties established about them. *)

From stdpp Require Import gmap strings list fin_maps pretty.
From Stdlib Require Import ZArith Ascii.

Set Warnings "-register-all".

(** ** JavaScript values

    The fragment of the value space the hooks touch: settings are plain
    JSON data, error objects are plain records, and the one class instance
    that ends up in a response body is a [URL] object. *)
Module JS.

Inductive jsval : Type :=
  | JUndefined
  | JNull
  | JBool (b : bool)
  | JNum (n : Z)
  | JStr (s : string)
  | JArr (items : list jsval)
  | JUrl (href : string)
  | JObj (props : gmap string jsval).

(** What leaves a handler through [throw]. *)
Inductive exn : Type :=
  | TypeError (what : string)
  | Uncaught (v : jsval).

(** [ToBoolean]. Numbers are integers here, so [NaN] does not occur. *)
Definition truthy (v : jsval) : bool :=
  match v with
  | JUndefined | JNull => false
  | JBool b => b
  | JNum n => negb (n =? 0)%Z
  | JStr s => negb (String.eqb s "")
  | JArr _ | JUrl _ | JObj _ => true
  end.

(** [v.k] for the property names the hooks read ([fileTypes],
    [maxFileSize], [storage], [baseFolder], [baseURL], [type],
    [statusCode]): reading from [undefined] or [null] throws, an object
    yields the own property or [undefined], every other value has no such
    property. *)
Definition get_prop (v : jsval) (k : string) : exn + jsval :=
  match v with
  | JUndefined => inl (TypeError ("Cannot read properties of undefined (reading '" +:+ k +:+ "')"))
  | JNull => inl (TypeError ("Cannot read properties of null (reading '" +:+ k +:+ "')"))
  | JObj props => inr (default JUndefined (props !! k))
  | _ => inr JUndefined
  end.

(** [a || b]. *)
Definition js_or (a b : jsval) : jsval := if truthy a then a else b.

(** [v === s] for a string literal [s]. *)
Definition is_str (v : jsval) (s : string) : bool :=
  match v with
  | JStr t => String.eqb t s
  | _ => false
  end.

(** The string inside a value that must be one ([validateString]). *)
Definition as_string (v : jsval) : option string :=
  match v with
  | JStr s => Some s
  | _ => None
  end.

(** The characters of a string, each as a one-character string. *)
Fixpoint chars (s : string) : list string :=
  match s with
  | EmptyString => []
  | String c rest => String c EmptyString :: chars rest
  end.

(** [Object.keys(v)] paired with [v[key]]: the own enumerable properties.
    Objects list their properties, arrays and strings their indices, every
    other value nothing. The keys are distinct; the order in which an
    object lists them is not modelled. *)
Definition own_entries (v : jsval) : list (string * jsval) :=
  match v with
  | JObj props => map_to_list props
  | JArr items => imap (fun i x => (pretty i, x)) items
  | JStr s => imap (fun i c => (pretty i, JStr c)) (chars s)
  | _ => []
  end.

End JS.

(** ** [path] (POSIX flavour)

    [path.extname] and [path.join] of Node.js, described on path segments. *)
Module Path.

Definition slash : ascii := "/"%char.
Definition dot : ascii := "."%char.

Definition is_slash (c : ascii) : bool := Ascii.eqb c slash.
Definition is_dot (c : ascii) : bool := Ascii.eqb c dot.

(** Split at every ['/']; the result is never empty. *)
Fixpoint split_slash (l : list ascii) : list (list ascii) :=
  match l with
  | [] => [[]]
  | c :: rest =>
      if is_slash c then [] :: split_slash rest
      else match split_slash rest with
           | seg :: segs => (c :: seg) :: segs
           | [] => [[c]]
           end
  end.

Fixpoint join_slash (segs : list (list ascii)) : list ascii :=
  match segs with
  | [] => []
  | [seg] => seg
  | seg :: rest => seg ++ slash :: join_slash rest
  end.

Definition nonempty (seg : list ascii) : bool :=
  match seg with [] => false | _ => true end.

Definition seg_eqb (a b : list ascii) : bool :=
  String.eqb (String.string_of_list_ascii a) (String.string_of_list_ascii b).

(** The part of [seg] from its last ['.'] on, when there is one, together
    with the position of that dot. *)
Fixpoint last_dot (seg : list ascii) : option (nat * list ascii) :=
  match seg with
  | [] => None
  | c :: rest =>
      match last_dot rest with
      | Some (i, ext) => Some (S i, ext)
      | None => if is_dot c then Some (0, c :: rest) else None
      end
  end.

(** [path.extname]: the extension of the last non-empty segment, from its
    last dot; empty when there is no dot, when the only dot leads the
    segment, or when the segment is [".."]. *)
Definition extname (p : string) : string :=
  match List.filter nonempty (rev (split_slash (String.list_ascii_of_string p))) with
  | [] => ""
  | base :: _ =>
      if seg_eqb base [dot; dot] then ""
      else match last_dot base with
           | Some (S _, ext) => String.string_of_list_ascii ext
           | _ => ""
           end
  end.

(** [normalizeString]: drop empty and ["."] segments, let [".."] cancel the
    segment before it, and keep a [".."] that has nothing to cancel only
    when the path is relative. The stack holds the kept segments, last
    first. *)
Fixpoint normalize_segs (allow_above_root : bool)
    (stack : list (list ascii)) (segs : list (list ascii)) : list (list ascii) :=
  match segs with
  | [] => rev stack
  | seg :: rest =>
      if negb (nonempty seg) || seg_eqb seg [dot] then
        normalize_segs allow_above_root stack rest
      else if seg_eqb seg [dot; dot] then
        match stack with
        | top :: below =>
            if seg_eqb top [dot; dot]
            then normalize_segs allow_above_root
                   (if allow_above_root then seg :: stack else stack) rest
            else normalize_segs allow_above_root below rest
        | [] =>
            normalize_segs allow_above_root
              (if allow_above_root then [seg] else []) rest
        end
      else normalize_segs allow_above_root (seg :: stack) rest
  end.

Definition last_is_slash (l : list ascii) : bool :=
  match rev l with
  | c :: _ => is_slash c
  | [] => false
  end.

(** [path.normalize]. *)
Definition normalize (p : string) : string :=
  let l := String.list_ascii_of_string p in
  match l with
  | [] => "."
  | c :: _ =>
      let is_absolute := is_slash c in
      let trailing := last_is_slash l in
      let body := join_slash (normalize_segs (negb is_absolute) [] (split_slash l)) in
      match body with
      | [] => if is_absolute then "/" else if trailing then "./" else "."
      | _ =>
          let body' := if trailing then body ++ [slash] else body in
          String.string_of_list_ascii (if is_absolute then slash :: body' else body')
      end
  end.

(** [path.join(a, b)]: the non-empty arguments joined by ['/'], normalized. *)
Definition join (a b : string) : string :=
  match a, b with
  | "", "" => "."
  | "", _ => normalize b
  | _, "" => normalize a
  | _, _ => normalize (a +:+ "/" +:+ b)
  end.

End Path.

(** ** [url.URL]

    [new url.URL(input, base)] either yields a URL object, of which only the
    serialization [href] is observed, or throws. The upload handler is
    parameterized by this function. [http_resolve] is the WHATWG resolution
    on the fragment the settings documentation uses: an [http://] or
    [https://] base made of a lower-case host name, an optional port and a
    path (no credentials, no query, no fragment), and a path-relative
    [input], both of characters that need no percent-encoding. Where it
    answers [Some href], that is the URL Node.js builds. [None] stands for
    a refusal of Node.js (a port that is no number below 65536) and also
    for every input outside the fragment, so only its [Some] answers are
    used as facts about Node.js. *)
Module Url.

Import Path.

Definition resolver : Type := string -> string -> option string.

(** Strip [prefix] from the front of [l]. *)
Fixpoint strip_prefix (prefix l : list ascii) : option (list ascii) :=
  match prefix, l with
  | [], _ => Some l
  | p :: prefix', c :: l' => if Ascii.eqb p c then strip_prefix prefix' l' else None
  | _ :: _, [] => None
  end.

(** The path state of the URL parser: ["."] is skipped and [".."] pops the
    last segment; either one, when it comes last, leaves an empty final
    segment. Empty segments are kept. *)
Fixpoint shorten (stack : list (list ascii)) (segs : list (list ascii)) : list (list ascii) :=
  match segs with
  | [] => rev stack
  | seg :: rest =>
      let is_last := match rest with [] => true | _ => false end in
      if seg_eqb seg [dot; dot] then
        shorten (if is_last then [] :: tail stack else tail stack) rest
      else if seg_eqb seg [dot] then
        shorten (if is_last then [] :: stack else stack) rest
      else shorten (seg :: stack) rest
  end.

(** Characters that the path of an [http] URL carries unchanged and that do
    not end it. *)
Definition plain_char (c : ascii) : bool :=
  let n := nat_of_ascii c in
  (Nat.leb 48 n && Nat.leb n 57) || (Nat.leb 65 n && Nat.leb n 90)
  || (Nat.leb 97 n && Nat.leb n 122)
  || Ascii.eqb c "-"%char || Ascii.eqb c "."%char || Ascii.eqb c "_"%char
  || Ascii.eqb c "~"%char || Ascii.eqb c "/"%char.

Definition lower_letter (c : ascii) : bool :=
  let n := nat_of_ascii c in Nat.leb 97 n && Nat.leb n 122.

Definition host_char (c : ascii) : bool :=
  let n := nat_of_ascii c in
  lower_letter c || (Nat.leb 48 n && Nat.leb n 57)
  || Ascii.eqb c "-"%char || Ascii.eqb c "."%char.

(** The first character after the last dot of a host name. *)
Fixpoint last_label_head (host : list ascii) : option ascii :=
  match host with
  | [] => None
  | c :: rest =>
      if existsb is_dot rest then last_label_head rest
      else if is_dot c then head rest else Some c
  end.

(** The labels of a host name. *)
Fixpoint labels (l : list ascii) : list (list ascii) :=
  match l with
  | [] => [[]]
  | c :: rest =>
      if is_dot c then [] :: labels rest
      else match labels rest with
           | lab :: labs => (c :: lab) :: labs
           | [] => [[c]]
           end
  end.

(** A label in the ASCII-compatible encoding of an international name,
    which the host parser decodes and may refuse. *)
Definition ace_label (lab : list ascii) : bool :=
  match strip_prefix (String.list_ascii_of_string "xn--") lab with
  | Some _ => true
  | None => false
  end.

(** A label of lower-case letters, digits and inner hyphens. *)
Definition plain_label (lab : list ascii) : bool :=
  forallb host_char lab
  && match lab, rev lab with
     | c :: _, d :: _ =>
         negb (Ascii.eqb c "-"%char) && negb (Ascii.eqb d "-"%char)
     | _, _ => false
     end
  && negb (ace_label lab).

(** A lower-case host name that the host parser keeps as it is: plain
    labels, the last of which starts with a letter, so that the name is
    not read as an IPv4 address. *)
Definition plain_host (host : list ascii) : bool :=
  forallb plain_label (labels host)
  && match last_label_head host with
     | Some c => lower_letter c
     | None => false
     end.

(** Split an authority at its first colon: the host and, after the colon,
    the port. *)
Fixpoint split_colon (l : list ascii) : list ascii * option (list ascii) :=
  match l with
  | [] => ([], None)
  | c :: rest =>
      if Ascii.eqb c ":"%char then ([], Some rest)
      else let '(host, port) := split_colon rest in (c :: host, port)
  end.

Definition is_digit (c : ascii) : bool :=
  let n := nat_of_ascii c in Nat.leb 48 n && Nat.leb n 57.

(** The number a string of digits denotes. *)
Definition digits_value (l : list ascii) : N :=
  foldl (fun acc c => (acc * 10 + N.of_nat (nat_of_ascii c - 48))%N) 0%N l.

(** The port as serialized: nothing for no port or the default port of the
    scheme, [None] for what is not a port. *)
Definition port_suffix (default : N) (port : option (list ascii)) : option string :=
  match port with
  | None | Some [] => Some ""
  | Some digits =>
      if forallb is_digit digits then
        let n := digits_value digits in
        if (65535 <? n)%N then None
        else if (n =? default)%N then Some ""
        else Some (":" +:+ pretty n)
      else None
  end.

Definition http_resolve : resolver := fun input base =>
  let b := String.list_ascii_of_string base in
  let i := String.list_ascii_of_string input in
  let scheme_rest :=
    match strip_prefix (String.list_ascii_of_string "http://") b with
    | Some rest => Some ("http://", 80%N, rest)
    | None =>
        match strip_prefix (String.list_ascii_of_string "https://") b with
        | Some rest => Some ("https://", 443%N, rest)
        | None => None
        end
    end in
  match scheme_rest with
  | None => None
  | Some (scheme, default, rest) =>
      match split_slash rest, i with
      | [], _ | _, [] => None
      | authority :: base_segs, c :: _ =>
          let '(host, port) := split_colon authority in
          if is_slash c || negb (forallb plain_char i)
             || negb (forallb (forallb plain_char) base_segs)
             || negb (plain_host host) then None
          else
            match port_suffix default port with
            | None => None
            | Some port =>
                let dir := removelast (shorten [] base_segs) in
                let segs := shorten [] (dir ++ split_slash i) in
                Some (scheme +:+ String.string_of_list_ascii host +:+ port +:+ "/"
                      +:+ String.string_of_list_ascii (join_slash segs))
            end
      end
  end.

End Url.

(** ** The [clientVars] hook *)
Module ClientVars.

Import JS.

(** What the hook hands to its callback. *)
Inductive callback_arg : Type :=
  | CbNothing
  | CbVars (vars : jsval).

(** One round of [keys.forEach] on the own properties of
    [pluginSettings]: every key but ['storage'] is assigned. The assignment
    to ['__proto__'] goes to the setter of [Object.prototype]: it creates
    no own property (see [plugin_prototype]). *)
Definition copy_key (pluginSettings : gmap string jsval) (entry : string * jsval)
    : gmap string jsval :=
  if negb (String.eqb entry.1 "storage") then
    if String.eqb entry.1 "__proto__" then pluginSettings
    else <[entry.1 := entry.2]> pluginSettings
  else pluginSettings.

(** The prototype that [keys.forEach] leaves on [pluginSettings] when it
    replaces [Object.prototype]: the value of a ['__proto__'] key of the
    settings, if that is an object or [null]; any other value is ignored by
    the setter. Inherited properties are not own properties: they are not
    listed by [Object.keys] and not serialized for the client. *)
Definition set_prototype (proto : option jsval) (entry : string * jsval)
    : option jsval :=
  if String.eqb entry.1 "__proto__" then
    match entry.2 with
    | JObj _ | JArr _ | JUrl _ | JNull => Some entry.2
    | _ => proto
    end
  else proto.

Definition plugin_prototype (ep : jsval) : option jsval :=
  foldl set_prototype None (own_entries ep).

(** [settings.ep_image_upload.storage.type], read behind the truthiness
    test on [storage], which keeps the read from throwing. *)
Definition storage_type (storage : jsval) : jsval :=
  match get_prop storage "type" with
  | inr t => t
  | inl _ => JUndefined
  end.

(** The object built in [pluginSettings] before [mimeTypes] is added. *)
Definition plugin_settings (ep : jsval) : gmap string jsval :=
  let copied :=
    foldl copy_key {[ "storageType" := JStr "base64" ]} (own_entries ep) in
  let storage :=
    match get_prop ep "storage" with inr v => v | inl _ => JUndefined end in
  if truthy storage && negb (is_str (storage_type storage) "base64")
  then <["storageType" := storage_type storage]> copied
  else copied.

(** [exports.clientVars]: [ep] is [settings.ep_image_upload] and
    [mimetypes] the table of [mime-db]. The result is the value left in
    [settings.ep_image_upload] and the argument of [cb]. *)
Definition clientVars (mimetypes : jsval) (ep : jsval) : jsval * callback_arg :=
  let ep := if negb (truthy ep) then JObj ∅ else ep in
  let pluginSettings := plugin_settings ep in
  if negb (truthy (JObj pluginSettings)) then (ep, CbNothing)
  else
    let pluginSettings := <["mimeTypes" := mimetypes]> pluginSettings in
    (ep, CbVars (JObj {[ "ep_image_upload" := JObj pluginSettings ]})).

(** The [ep_image_upload] object the client receives. *)
Definition exposed (mimetypes : jsval) (ep : jsval) : gmap string jsval :=
  match (clientVars mimetypes ep).2 with
  | CbVars (JObj vars) =>
      match vars !! "ep_image_upload" with
      | Some (JObj pluginSettings) => pluginSettings
      | _ => ∅
      end
  | _ => ∅
  end.

End ClientVars.

(** ** The POST upload handler of [expressConfigure]

    One request is one [session]: the variables the handler closes over
    ([isDone], [uploadResult], [accessPath], the id drawn from [uuid.v4]),
    the state of the objects it holds (whether the parser still has its
    listeners, which upload promises have settled, which carry the
    [then]/[catch] pair of the finish handler), the rejections no handler
    took, and the calls it has made on its collaborators, in order. The parser, the storage library and the
    promise machinery drive it through [event]s. *)
Module Upload.

Import JS.

(** How a promise returned by [imageUpload.upload] settles. *)
Inductive settle : Type :=
  | Fulfilled (data : jsval)
  | Rejected (err : jsval).

(** Calls on the collaborators. [ERespond status body] is one call of
    [res.status(status).json(body)]; [EThrow] is an exception that leaves
    the running handler. *)
Inductive effect : Type :=
  | ENewUploader (extensions maxSize baseFolder storage : jsval)
  | ENewBusboy (fileSize : jsval)
  | EPipe
  | ELogError (tag : string) (err : jsval)
  | ENext (err : jsval)
  | ERespond (status body : jsval)
  | EUnpipe
  | EDrain
  | ERemoveAllListeners
  | EDeletePartials
  | EUpload (promise : nat) (type : jsval) (filename : string)
  | EThrow (e : exn).

Record session : Type := {
  ep : jsval;                  (* settings.ep_image_upload *)
  padId : string;              (* req.params.padId *)
  newFileName : string;        (* uuid.v4() *)
  isDone : bool;
  uploadResult : option nat;   (* the promise of the latest upload *)
  accessPath : jsval;
  listening : bool;            (* busboy still has its listeners *)
  uploads : nat;               (* file streams handed to imageUpload.upload *)
  settled : gmap nat settle;
  pending : list nat;          (* promises awaited by a finish handler *)
  unhandled : list jsval;      (* rejections raised as 'unhandledRejection' *)
  log : list effect
}.

Definition emit (e : effect) (s : session) : session :=
  {| ep := ep s; padId := padId s; newFileName := newFileName s;
     isDone := isDone s; uploadResult := uploadResult s;
     accessPath := accessPath s; listening := listening s;
     uploads := uploads s; settled := settled s; pending := pending s;
     unhandled := unhandled s; log := log s ++ [e] |}.

Definition set_isDone (b : bool) (s : session) : session :=
  {| ep := ep s; padId := padId s; newFileName := newFileName s;
     isDone := b; uploadResult := uploadResult s;
     accessPath := accessPath s; listening := listening s;
     uploads := uploads s; settled := settled s; pending := pending s;
     unhandled := unhandled s; log := log s |}.

Definition set_accessPath (v : jsval) (s : session) : session :=
  {| ep := ep s; padId := padId s; newFileName := newFileName s;
     isDone := isDone s; uploadResult := uploadResult s;
     accessPath := v; listening := listening s;
     uploads := uploads s; settled := settled s; pending := pending s;
     unhandled := unhandled s; log := log s |}.

Definition set_listening (b : bool) (s : session) : session :=
  {| ep := ep s; padId := padId s; newFileName := newFileName s;
     isDone := isDone s; uploadResult := uploadResult s;
     accessPath := accessPath s; listening := b;
     uploads := uploads s; settled := settled s; pending := pending s;
     unhandled := unhandled s; log := log s |}.

Definition set_pending (l : list nat) (s : session) : session :=
  {| ep := ep s; padId := padId s; newFileName := newFileName s;
     isDone := isDone s; uploadResult := uploadResult s;
     accessPath := accessPath s; listening := listening s;
     uploads := uploads s; settled := settled s; pending := l;
     unhandled := unhandled s; log := log s |}.

Definition raise_unhandled (err : jsval) (s : session) : session :=
  {| ep := ep s; padId := padId s; newFileName := newFileName s;
     isDone := isDone s; uploadResult := uploadResult s;
     accessPath := accessPath s; listening := listening s;
     uploads := uploads s; settled := settled s; pending := pending s;
     unhandled := unhandled s ++ [err]; log := log s |}.

Definition set_settled (m : gmap nat settle) (s : session) : session :=
  {| ep := ep s; padId := padId s; newFileName := newFileName s;
     isDone := isDone s; uploadResult := uploadResult s;
     accessPath := accessPath s; listening := listening s;
     uploads := uploads s; settled := m; pending := pending s;
     unhandled := unhandled s; log := log s |}.

(** [uploadResult = imageUpload.upload(file, {type, filename})]: the call
    returns a fresh promise. *)
Definition start_upload (type : jsval) (filename : string) (s : session) : session :=
  {| ep := ep s; padId := padId s; newFileName := newFileName s;
     isDone := isDone s; uploadResult := Some (uploads s);
     accessPath := accessPath s; listening := listening s;
     uploads := S (uploads s); settled := settled s; pending := pending s;
     unhandled := unhandled s; log := log s ++ [EUpload (uploads s) type filename] |}.

(** The [res.status(..).json(..)] calls among the effects. *)
Definition is_response (e : effect) : bool :=
  match e with ERespond _ _ => true | _ => false end.

Definition responses (s : session) : list effect := List.filter is_response (log s).

(** A property read that cannot throw because its receiver was tested. *)
Definition prop (v : jsval) (k : string) : jsval :=
  match get_prop v k with inr x => x | inl _ => JUndefined end.

(** The error built by the ['limit'] listener. *)
Definition limit_error : jsval :=
  JObj (<["message" := JStr "File is too large"]>
       (<["type" := JStr "fileSize"]>
       (<["statusCode" := JNum 403]> ∅))).

(** [done]. The first test returns on every truthy [error]; what follows it
    runs for a falsy one only. The result says whether the call threw. *)
Definition done (error : jsval) (s : session) : session * bool :=
  if truthy error then
    (emit (ELogError "EP_IMAGE_UPLOAD UPLOAD ERROR" error) s, false)
  else if isDone s then (s, false)
  else
    let s := set_isDone true s in
    match get_prop error "statusCode" with
    | inl e => (emit (EThrow e) s, true)
    | inr statusCode =>
        let s := emit (ERespond (js_or statusCode (JNum 500)) error) s in
        let s := emit EUnpipe s in
        let s := emit EDrain s in
        let s := set_listening false (emit ERemoveAllListeners s) in
        (s, false)
    end.

(** [busboy.emit('error', error)]: runs [done], the one listener; an
    emitter without an ['error'] listener throws what it was given. *)
Definition emit_error (error : jsval) (s : session) : session * bool :=
  if listening s then done error s
  else (emit (EThrow (Uncaught error)) s, true).

(** The [then]/[catch] pair attached by the finish handler. *)
Definition respond_settled (o : settle) (s : session) : session :=
  match o with
  | Fulfilled data =>
      let data := if truthy (accessPath s) then accessPath s else data in
      emit (ERespond (JNum 201) data) s
  | Rejected err => emit (ERespond (JNum 500) err) s
  end.

Inductive event : Type :=
  | EvFile (filename mimetype : jsval)  (* busboy 'file' *)
  | EvLimit                             (* 'limit' on a file stream *)
  | EvFileError (err : jsval)           (* 'error' on a file stream *)
  | EvError (err : jsval)               (* busboy 'error', from the parser *)
  | EvFinish                            (* busboy 'finish' *)
  | EvSettle (promise : nat) (o : settle).

Section Handler.

Variable URL : Url.resolver.

(** The ['file'] listener. [baseURL] is the local variable that gets the
    trailing slash; as in the source, the URL is then built from the
    setting, [settingsBaseURL], and [baseURL] is not read again. A throw
    leaves the listener before the stream gets its own listeners and before
    the upload starts. *)
Definition on_file (filename mimetype : jsval) (s : session) : session :=
  match as_string filename with
  | None => emit (EThrow (TypeError "The path argument must be of type string")) s
  | Some filename =>
      let savedFilename := Path.join (padId s) (newFileName s +:+ Path.extname filename) in
      let storage := prop (ep s) "storage" in
      if truthy storage && is_str (prop storage "type") "local" then
        match as_string (prop storage "baseURL") with
        | None => emit (EThrow (TypeError "baseURL.charAt is not a function")) s
        | Some settingsBaseURL =>
            let baseURL :=
              if negb (String.eqb
                         (String.substring (String.length settingsBaseURL - 1) 1 settingsBaseURL)
                         "/")
              then settingsBaseURL +:+ "/" else settingsBaseURL in
            match URL savedFilename settingsBaseURL with
            | None => emit (EThrow (TypeError "Invalid URL")) s
            | Some href =>
                let s := set_accessPath (JUrl href) s in
                match as_string (prop storage "baseFolder") with
                | None =>
                    emit (EThrow (TypeError "The path argument must be of type string")) s
                | Some baseFolder =>
                    start_upload mimetype (Path.join baseFolder savedFilename) s
                end
            end
        end
      else start_upload mimetype savedFilename s
  end.

(** The ['limit'] listener of a file stream. *)
Definition on_limit (s : session) : session :=
  let error := limit_error in
  let '(s, threw) := emit_error error s in
  if threw then s else emit EDeletePartials s.

(** The ['finish'] listener. *)
Definition on_finish (s : session) : session :=
  match uploadResult s with
  | Some p =>
      match settled s !! p with
      | Some o => respond_settled o s
      | None => set_pending (p :: pending s) s
      end
  | None => s
  end.

(** What a settling promise sets off: each attached [then]/[catch] pair
    answers; a rejection that finds none is left unhandled. *)
Definition run_handlers (o : settle) (waiting : list nat) (s : session) : session :=
  match o, waiting with
  | Rejected err, [] => raise_unhandled err s
  | _, _ => foldl (fun s _ => respond_settled o s) s waiting
  end.

(** A promise settles once; every [then]/[catch] pair attached to it runs.
    A promise that rejects while no handler is attached to it makes the
    runtime raise ['unhandledRejection']; what the process does with that
    (by default it ends) is outside the handler. *)
Definition on_settle (p : nat) (o : settle) (s : session) : session :=
  if bool_decide (p < uploads s) && bool_decide (settled s !! p = None) then
    let waiting := List.filter (Nat.eqb p) (pending s) in
    let s := set_settled (<[p := o]> (settled s)) s in
    let s := set_pending (List.filter (fun q => negb (Nat.eqb p q)) (pending s)) s in
    run_handlers o waiting s
  else s.

(** One event. Parser events reach only the listeners still attached; the
    listeners of a file stream exist once that stream has been handed to
    [imageUpload.upload]. *)
Definition step (s : session) (e : event) : session :=
  match e with
  | EvFile filename mimetype => if listening s then on_file filename mimetype s else s
  | EvLimit => if bool_decide (0 < uploads s) then on_limit s else s
  | EvFileError err => if bool_decide (0 < uploads s) then (emit_error err s).1 else s
  | EvError err => (emit_error err s).1
  | EvFinish => if listening s then on_finish s else s
  | EvSettle p o => on_settle p o s
  end.

Definition run (s : session) (events : list event) : session := foldl step s events.

End Handler.

(** Whether [new Busboy({headers, limits})] returns or throws, which the
    request headers decide. *)
Inductive parser_ctor : Type :=
  | CtorOk
  | CtorThrows (error : jsval).

(** The variables of a request whose parser was built: [isDone] and
    [uploadResult] are declared without a value, [accessPath] is [''],
    the three listeners are on and the request is piped in. *)
Definition new_session (ep : jsval) (padId uuid : string) (effects : list effect)
    : session :=
  {| ep := ep; padId := padId; newFileName := uuid;
     isDone := false; uploadResult := None;
     accessPath := JStr ""; listening := true;
     uploads := 0; settled := ∅; pending := []; unhandled := [];
     log := effects |}.

(** How the route handler itself ends. *)
Inductive handler_result : Type :=
  | HThrow (e : exn) (effects : list effect)
  | HNext (effects : list effect)
  | HIdle (effects : list effect)
  | HSession (s : session).

(** The route handler up to [req.pipe(busboy)]. [ep] is
    [settings.ep_image_upload], [uuid] the value [uuid.v4()] returns. *)
Definition post_upload (ep : jsval) (padId : string) (ctor : parser_ctor)
    (uuid : string) : handler_result :=
  match get_prop ep "fileTypes" with
  | inl e => HThrow e []
  | inr extensions =>
  match get_prop ep "maxFileSize" with
  | inl e => HThrow e []
  | inr maxSize =>
  match get_prop ep "storage" with
  | inl e => HThrow e []
  | inr storage =>
  match get_prop storage "baseFolder" with
  | inl e => HThrow e []
  | inr baseFolder =>
      let effects := [ENewUploader extensions maxSize baseFolder storage] in
      let storageConfig := storage in
      if truthy storageConfig then
        match ctor with
        | CtorThrows error =>
            HNext (effects ++ [ELogError "EP_IMAGE_UPLOAD ERROR" error; ENext error])
        | CtorOk =>
            HSession (new_session ep padId uuid (effects ++ [ENewBusboy maxSize; EPipe]))
        end
      else HIdle effects
  end end end end.

(** The effects of a request: those of the route handler and, when a
    session starts, those of its events. *)
Definition handle (URL : Url.resolver) (ep : jsval) (padId : string)
    (ctor : parser_ctor) (uuid : string) (events : list event) : list effect :=
  match post_upload ep padId ctor uuid with
  | HThrow e effects => effects ++ [EThrow e]
  | HNext effects | HIdle effects => effects
  | HSession s => log (run URL s events)
  end.

(** What the parser emits for a body of well-formed file parts, each a
    file name, a declared type and a size in bytes: a part is announced,
    and ['limit'] fires on its stream when data arrives and the size
    exceeds [fileSize] (an empty part carries no data, so no limit; no
    limit either when [fileSize] is not a number); ['finish'] comes last. *)
Definition part_events (fileSize : jsval) (part : string * string * Z) : list event :=
  let '(filename, mimetype, size) := part in
  EvFile (JStr filename) (JStr mimetype) ::
  match fileSize with
  | JNum limit => if (0 <? size)%Z && (limit <? size)%Z then [EvLimit] else []
  | _ => []
  end.

Definition multipart_events (fileSize : jsval) (parts : list (string * string * Z))
    : list event :=
  List.concat (List.map (part_events fileSize) parts) ++ [EvFinish].

End Upload.

(** ** Scenarios and trace predicates used in the statements *)
Module Scenario.

Import JS ClientVars Upload.

(** The [storage] object of the documented local set-up. *)
Definition local_storage (baseURL : string) : jsval :=
  JObj (<["type" := JStr "local"]>
       (<["baseFolder" := JStr "/tmp/up"]>
       (<["baseURL" := JStr baseURL]> ∅))).

(** [{fileTypes: ["png"], maxFileSize: 1000, storage: {type: "local",
    baseFolder: "/tmp/up", baseURL}}]. *)
Definition local_settings (baseURL : string) : jsval :=
  JObj (<["fileTypes" := JArr [JStr "png"]]>
       (<["maxFileSize" := JNum 1000]>
       (<["storage" := local_storage baseURL]> ∅))).

(** A bucket set-up, with its credentials. *)
Definition s3_storage : jsval :=
  JObj (<["type" := JStr "s3"]>
       (<["accessKeyId" := JStr "AKIDEXAMPLE"]>
       (<["secretAccessKey" := JStr "SECRETEXAMPLE"]>
       (<["region" := JStr "eu-west-1"]>
       (<["bucket" := JStr "pads"]>
       (<["baseFolder" := JStr "images"]> ∅)))))).

Definition s3_settings : jsval :=
  JObj (<["fileTypes" := JArr [JStr "png"]]>
       (<["maxFileSize" := JNum 1000]>
       (<["storage" := s3_storage]> ∅))).

(** The settings of the README, which names the bucket set-up [s3] and has
    no [storage] key. *)
Definition readme_settings : jsval :=
  JObj (<["s3" := s3_storage]> ∅).

Definition pad : string := "pad1".
Definition id : string := "110ec58a-a0f2-4ac4-8393-c866d813b8d1".

(** The session of a request on [pad] under [ep]. *)
Definition opened (ep : jsval) : session :=
  match post_upload ep pad CtorOk id with
  | HSession s => s
  | _ => new_session ep pad id []
  end.

Definition photo : event := EvFile (JStr "photo.png") (JStr "image/png").
Definition second_photo : event := EvFile (JStr "other.png") (JStr "image/png").

(** An error of the multipart parser. *)
Definition malformed : jsval :=
  JObj (<["message" := JStr "Unexpected end of multipart data"]> ∅).

(** A storage error that carries its own status, as the errors of the
    bucket client do. *)
Definition access_denied : jsval :=
  JObj (<["message" := JStr "Access Denied"]>
       (<["code" := JStr "AccessDenied"]>
       (<["statusCode" := JNum 403]> ∅))).

(** What the bucket back end resolves with. *)
Definition stored : jsval :=
  JObj (<["Location" := JStr "https://pads.s3.amazonaws.com/images/pad1/x.png"]> ∅).

(** An event that is not the announcement of a file part. *)
Definition not_file (e : event) : bool :=
  match e with EvFile _ _ => false | _ => true end.

Definition is_finish (e : event) : bool :=
  match e with EvFinish => true | _ => false end.

(** The error events of [e], if any, carry a truthy value, as every
    [Error] object is. *)
Definition error_is_object (e : event) : bool :=
  match e with
  | EvError err | EvFileError err => truthy err
  | _ => true
  end.

(** The status a failure would get if it mirrored the error:
    [error.statusCode || 500]. *)
Definition mirrored_status (err : jsval) : jsval :=
  js_or (prop err "statusCode") (JNum 500).

Definition is_delete_partials (e : effect) : bool :=
  match e with EDeletePartials => true | _ => false end.

(** [storage] is set and says ['local']. *)
Definition is_local (ep : jsval) : bool :=
  truthy (prop ep "storage") && is_str (prop (prop ep "storage") "type") "local".

(** Responses written so far plus those a settling promise will write. *)
Definition awaited (s : session) : nat :=
  length (responses s) + length (pending s).

(** No upload has been started. *)
Definition idle (s : session) : Prop :=
  uploadResult s = None /\ uploads s = 0.

(** An effect on the request stream or on the listeners of the parser:
    what [done] does after it has answered. *)
Definition releases_request (e : effect) : bool :=
  match e with
  | EUnpipe | EDrain | ERemoveAllListeners => true
  | _ => false
  end.

(** The name under which a part called [filename] is stored: the pad, the
    id of the request and the extension, below the base folder when the
    storage is local. *)
Definition storage_key (ep : jsval) (padId uuid filename key : string) : Prop :=
  let saved := Path.join padId (uuid +:+ Path.extname filename) in
  if is_local ep
  then exists baseFolder,
         prop (prop ep "storage") "baseFolder" = JStr baseFolder
         /\ key = Path.join baseFolder saved
  else key = saved.

(** The response the finish handler writes for a settled upload. *)
Definition settled_response (accessPath : jsval) (o : settle) : effect :=
  match o with
  | Fulfilled data => ERespond (JNum 201) (if truthy accessPath then accessPath else data)
  | Rejected err => ERespond (JNum 500) err
  end.

(** What one event may add to the effects of a session: an upload only for
    a file part, under the storage key of its name; the release of the
    request only for an error that is not an object. *)
Definition step_effect (s : session) (e : event) (eff : effect) : Prop :=
  match eff with
  | EUpload p t key =>
      exists filename,
        e = EvFile (JStr filename) t
        /\ storage_key (ep s) (padId s) (newFileName s) filename key
  | EUnpipe | EDrain | ERemoveAllListeners => error_is_object e = false
  | ELogError _ _ | EThrow _ | EDeletePartials | ERespond _ _ => True
  | ENewUploader _ _ _ _ | ENewBusboy _ | EPipe | ENext _ => False
  end.

Definition is_upload (e : effect) : bool :=
  match e with EUpload _ _ _ => true | _ => false end.

(** Settings that use the names the hook itself assigns. *)
Definition shadowing_settings : gmap string jsval :=
  <["mimeTypes" := JArr [JStr "image/png"]]>
  (<["storageType" := JStr "custom"]>
  (<["storage" := s3_storage]> ∅)).

(** All the hook takes from the [storage] object: its [type], when
    [storage] is set and the type is not ['base64']. *)
Definition storage_view (settings : gmap string jsval) : option jsval :=
  let storage := default JUndefined (settings !! "storage") in
  if truthy storage && negb (is_str (storage_type storage) "base64")
  then Some (storage_type storage)
  else None.

(** A string without ['/']. *)
Definition slash_free (x : string) : bool :=
  forallb (fun c => negb (Path.is_slash c)) (String.list_ascii_of_string x).

(** A single path segment that normalization leaves alone: not empty, no
    ['/'], and neither ["."] nor [".."]. *)
Definition plain_segment (x : string) : bool :=
  slash_free x
  && negb (String.eqb x "") && negb (String.eqb x ".") && negb (String.eqb x "..").

(** An id as [uuid.v4] produces them: not empty, no ['/'], and not
    starting with a dot. *)
Definition plain_id (x : string) : bool :=
  slash_free x
  && match x with
     | String c _ => negb (Path.is_dot c)
     | EmptyString => false
     end.

(** The same on character lists. *)
Definition no_slash (l : list ascii) : Prop :=
  forallb (fun c => negb (Path.is_slash c)) l = true.

Definition plain (l : list ascii) : Prop :=
  no_slash l /\ l <> [] /\ l <> [Path.dot] /\ l <> [Path.dot; Path.dot].

End Scenario.

(** ** The [padRemove] hook *)
Module PadRemove.

Import JS.

(** How the hook ends: without touching the file system, with one call of
    [fs.promises.rmdir(dir, {recursive: true})], or with a rejection. *)
Inductive removal : Type :=
  | RmNothing
  | RmDir (dir : string)
  | RmReject (e : exn).

(** The default [= {}] of a destructuring pattern: it replaces [undefined]
    and nothing else. *)
Definition or_empty (v : jsval) : jsval :=
  match v with
  | JUndefined => JObj ∅
  | _ => v
  end.

(** [exports.padRemove]: [ep] is [settings.ep_image_upload], [padID] is
    [context.padID]. The pattern
    [{ep_image_upload: {storage: {type, baseFolder} = {}} = {}}] reads
    [storage] from [ep] and [type], [baseFolder] from [storage], each
    behind its default; [path.join] wants strings. *)
Definition padRemove (ep : jsval) (padID : jsval) : removal :=
  match get_prop (or_empty ep) "storage" with
  | inl e => RmReject e
  | inr storage =>
      match get_prop (or_empty storage) "type" with
      | inl e => RmReject e
      | inr type =>
          match get_prop (or_empty storage) "baseFolder" with
          | inl e => RmReject e
          | inr baseFolder =>
              if is_str type "local" then
                match as_string baseFolder, as_string padID with
                | Some baseFolder, Some padID => RmDir (Path.join baseFolder padID)
                | _, _ =>
                    RmReject (TypeError "The path argument must be of type string")
                end
              else RmNothing
          end
      end
  end.

End PadRemove.

(** ** Further predicates on sessions and traces *)
Module Coverage.

Import JS Upload Scenario.

(** A response carries one of the two statuses the finish handler and
    [done] can compute. *)
Definition status_201_or_500 (e : effect) : Prop :=
  match e with
  | ERespond status _ => status = JNum 201 \/ status = JNum 500
  | _ => True
  end.

Definition is_limit (e : event) : bool :=
  match e with EvLimit => true | _ => false end.

(** A value that is neither [undefined] nor [null]. *)
Definition non_nullish (v : jsval) : bool :=
  match v with
  | JUndefined | JNull => false
  | _ => true
  end.

(** Local storage whose settings make the ['file'] listener throw on every
    part: [baseURL] or [baseFolder] is not a string, or [url.URL] refuses
    the base. *)
Definition local_unusable (URL : Url.resolver) (ep : jsval) : Prop :=
  is_local ep = true
  /\ (as_string (prop (prop ep "storage") "baseURL") = None
      \/ as_string (prop (prop ep "storage") "baseFolder") = None
      \/ exists base,
           prop (prop ep "storage") "baseURL" = JStr base
           /\ forall input, URL input base = None).

(** Nothing has been released, or [done] has run its last block, once. *)
Definition guarded (s : session) : Prop :=
  List.filter releases_request (log s) = []
  \/ (isDone s = true
      /\ List.filter releases_request (log s) = [EUnpipe; EDrain; ERemoveAllListeners]).

(** The promise of the latest upload is the one [uploadResult] holds, and
    the finish handler waits for promises of started uploads only. *)
Definition tracks_latest (s : session) : Prop :=
  match uploadResult s with
  | Some p => S p = uploads s
  | None => uploads s = 0
  end.

End Coverage.

(** * Properties *)

Import JS ClientVars Upload Scenario.

(** ** The route handler *)

Lemma get_prop_truthy (v : jsval) (k : string) :
  truthy v = true -> exists x, get_prop v k = inr x.
Proof. destruct v; simpl; intros H; try discriminate; eauto. Qed.

(** C9: when [settings.ep_image_upload.storage] is undefined the route
    handler throws a TypeError on reading [storage.baseFolder] for the
    uploader; the test on [storageConfig] is never reached, no uploader or
    parser is built and nothing is written to the response. *)
Theorem C9_undefined_storage_throws (URL : Url.resolver) (ep : jsval)
    (padId uuid : string) (ctor : parser_ctor) (events : list event) :
  get_prop ep "storage" = inr JUndefined ->
  post_upload ep padId ctor uuid
    = HThrow (TypeError "Cannot read properties of undefined (reading 'baseFolder')") []
  /\ handle URL ep padId ctor uuid events
    = [EThrow (TypeError "Cannot read properties of undefined (reading 'baseFolder')")].
Proof.
  intros Hst.
  assert (Hpost : post_upload ep padId ctor uuid
    = HThrow (TypeError "Cannot read properties of undefined (reading 'baseFolder')") []).
  { unfold post_upload. rewrite Hst.
    destruct ep; simpl in *; try discriminate; reflexivity. }
  split; [exact Hpost|]. unfold handle. rewrite Hpost. reflexivity.
Qed.

Lemma C9_undefined_storage_throws_witness :
  get_prop readme_settings "storage" = inr JUndefined
  /\ handle Url.http_resolve readme_settings pad CtorOk id [photo; EvFinish]
     = [EThrow (TypeError "Cannot read properties of undefined (reading 'baseFolder')")].
Proof.
  split; [reflexivity|].
  apply (C9_undefined_storage_throws Url.http_resolve readme_settings pad id CtorOk
           [photo; EvFinish]).
  reflexivity.
Defined.

(** ** The session: how the effects grow *)

Lemma responses_emit (e : effect) (s : session) :
  responses (emit e s) = responses s ++ (if is_response e then [e] else []).
Proof.
  unfold responses, emit; simpl. rewrite List.filter_app. simpl.
  destruct (is_response e); reflexivity.
Qed.

Lemma responses_start_upload (t : jsval) (f : string) (s : session) :
  responses (start_upload t f s) = responses s.
Proof.
  unfold responses, start_upload; simpl. rewrite List.filter_app. simpl.
  apply app_nil_r.
Qed.

(** On a truthy error [done] logs and returns: it neither reads nor sets
    [isDone], writes no response and leaves the request piped in. *)
Lemma done_truthy (err : jsval) (s : session) :
  truthy err = true ->
  done err s = (emit (ELogError "EP_IMAGE_UPLOAD UPLOAD ERROR" err) s, false).
Proof. intros H. unfold done. rewrite H. reflexivity. Qed.

Lemma emit_error_truthy (err : jsval) (s : session) :
  truthy err = true ->
  emit_error err s =
    if listening s
    then (emit (ELogError "EP_IMAGE_UPLOAD UPLOAD ERROR" err) s, false)
    else (emit (EThrow (Uncaught err)) s, true).
Proof.
  intros H. unfold emit_error. destruct (listening s); [apply done_truthy, H|reflexivity].
Qed.

Lemma limit_error_truthy : truthy limit_error = true.
Proof. reflexivity. Qed.

Lemma on_limit_listening (s : session) :
  listening s = true ->
  on_limit s =
    emit EDeletePartials (emit (ELogError "EP_IMAGE_UPLOAD UPLOAD ERROR" limit_error) s).
Proof.
  intros H. unfold on_limit. rewrite (emit_error_truthy _ _ limit_error_truthy), H.
  reflexivity.
Qed.

Lemma on_limit_deaf (s : session) :
  listening s = false ->
  on_limit s = emit (EThrow (Uncaught limit_error)) s.
Proof.
  intros H. unfold on_limit. rewrite (emit_error_truthy _ _ limit_error_truthy), H.
  reflexivity.
Qed.

Section Steps.

Variable URL : Url.resolver.

(** A file part changes neither the responses nor the awaited promises. *)
Lemma on_file_quiet (filename mimetype : jsval) (s : session) :
  responses (on_file URL filename mimetype s) = responses s
  /\ pending (on_file URL filename mimetype s) = pending s.
Proof.
  unfold on_file.
  repeat match goal with
  | |- context [match ?x with _ => _ end] => destruct x
  end;
  rewrite ?responses_emit, ?responses_start_upload; simpl;
  rewrite ?app_nil_r; auto.
Qed.

Lemma respond_settled_awaited (o : settle) (s : session) :
  length (responses (respond_settled o s)) = S (length (responses s))
  /\ pending (respond_settled o s) = pending s.
Proof.
  destruct o; simpl; rewrite responses_emit; simpl;
    rewrite length_app; simpl; split; auto; lia.
Qed.

Lemma respond_settled_repeat (o : settle) (waiting : list nat) (s : session) :
  length (responses (foldl (fun s _ => respond_settled o s) s waiting))
    = length (responses s) + length waiting
  /\ pending (foldl (fun s _ => respond_settled o s) s waiting) = pending s.
Proof.
  revert s. induction waiting as [|p waiting IH]; intros s; simpl.
  - split; [lia|reflexivity].
  - destruct (IH (respond_settled o s)) as [Hr Hp].
    destruct (respond_settled_awaited o s) as [Hr' Hp'].
    rewrite Hr, Hp, Hr', Hp'. split; [lia|reflexivity].
Qed.

(** A rejection left unhandled changes none of the calls made. *)
Lemma run_handlers_foldl (o : settle) (waiting : list nat) (s : session) :
  log (run_handlers o waiting s)
    = log (foldl (fun s _ => respond_settled o s) s waiting)
  /\ pending (run_handlers o waiting s)
    = pending (foldl (fun s _ => respond_settled o s) s waiting)
  /\ isDone (run_handlers o waiting s)
    = isDone (foldl (fun s _ => respond_settled o s) s waiting)
  /\ uploadResult (run_handlers o waiting s)
    = uploadResult (foldl (fun s _ => respond_settled o s) s waiting)
  /\ uploads (run_handlers o waiting s)
    = uploads (foldl (fun s _ => respond_settled o s) s waiting)
  /\ ep (run_handlers o waiting s)
    = ep (foldl (fun s _ => respond_settled o s) s waiting)
  /\ padId (run_handlers o waiting s)
    = padId (foldl (fun s _ => respond_settled o s) s waiting)
  /\ newFileName (run_handlers o waiting s)
    = newFileName (foldl (fun s _ => respond_settled o s) s waiting)
  /\ listening (run_handlers o waiting s)
    = listening (foldl (fun s _ => respond_settled o s) s waiting).
Proof. destruct o, waiting; repeat split; reflexivity. Qed.

Lemma run_handlers_responses (o : settle) (waiting : list nat) (s : session) :
  responses (run_handlers o waiting s)
  = responses (foldl (fun s _ => respond_settled o s) s waiting).
Proof.
  unfold responses. destruct (run_handlers_foldl o waiting s) as (-> & _). reflexivity.
Qed.

Lemma filter_split_length (p : nat) (l : list nat) :
  length (List.filter (Nat.eqb p) l)
  + length (List.filter (fun q => negb (Nat.eqb p q)) l) = length l.
Proof.
  induction l as [|q l IH]; simpl; [reflexivity|].
  destruct (Nat.eqb p q); simpl; lia.
Qed.

(** Settling a promise turns the handlers that wait for it into
    responses, one each. *)
Lemma on_settle_awaited (p : nat) (o : settle) (s : session) :
  awaited (on_settle p o s) = awaited s.
Proof.
  unfold on_settle.
  destruct (bool_decide (p < uploads s) && bool_decide (settled s !! p = None));
    [|reflexivity].
  unfold awaited.
  match goal with
  | |- context [run_handlers o ?w ?s0] =>
      rewrite (run_handlers_responses o w s0);
      destruct (run_handlers_foldl o w s0) as (_ & -> & _);
      destruct (respond_settled_repeat o w s0) as [Hr Hp]
  end.
  rewrite Hr, Hp. simpl.
  pose proof (filter_split_length p (pending s)).
  unfold responses at 1. simpl. fold (responses s). lia.
Qed.

Lemma on_finish_awaited (s : session) :
  awaited (on_finish s) <= S (awaited s).
Proof.
  unfold on_finish, awaited.
  destruct (uploadResult s) as [p|]; [|lia].
  destruct (settled s !! p) as [o|].
  - destruct (respond_settled_awaited o s) as [Hr Hp]. rewrite Hr, Hp. lia.
  - simpl. unfold responses. simpl. lia.
Qed.

(** Only the finish handler can add to what the client will be sent, and
    by one response at most, as long as the errors are objects. *)
Lemma step_awaited (s : session) (e : event) :
  error_is_object e = true ->
  awaited (step URL s e) <= awaited s + (if is_finish e then 1 else 0).
Proof.
  intros Hobj. destruct e as [f m| |err|err| |p o]; simpl in *.
  - destruct (listening s); [|lia].
    unfold awaited. destruct (on_file_quiet f m s) as [-> ->]. lia.
  - case_bool_decide; [|lia].
    destruct (listening s) eqn:Hl.
    + rewrite (on_limit_listening _ Hl). unfold awaited.
      rewrite !responses_emit. simpl. rewrite !app_nil_r. lia.
    + rewrite (on_limit_deaf _ Hl). unfold awaited.
      rewrite !responses_emit. simpl. rewrite !app_nil_r. lia.
  - case_bool_decide; [|lia].
    rewrite (emit_error_truthy _ _ Hobj).
    destruct (listening s); simpl; unfold awaited;
      rewrite responses_emit; simpl; rewrite app_nil_r; lia.
  - rewrite (emit_error_truthy _ _ Hobj).
    destruct (listening s); simpl; unfold awaited;
      rewrite responses_emit; simpl; rewrite app_nil_r; lia.
  - destruct (listening s); [|lia].
    pose proof (on_finish_awaited s). lia.
  - rewrite on_settle_awaited. lia.
Qed.

Lemma run_awaited (events : list event) (s : session) :
  forallb error_is_object events = true ->
  awaited (run URL s events) <= awaited s + length (List.filter is_finish events).
Proof.
  revert s. induction events as [|e events IH]; intros s Hobj; simpl in *.
  - lia.
  - apply andb_prop in Hobj as [He Hrest].
    specialize (IH (step URL s e) Hrest).
    pose proof (step_awaited s e He).
    unfold run in *. destruct (is_finish e); simpl; lia.
Qed.

(** X4: the parser finishes once, so a request whose error events carry
    error objects gets one response at most. *)
Lemma at_most_one_response (ep : jsval) (padId uuid : string)
    (effects : list effect) (events : list event) :
  List.filter is_response effects = [] ->
  forallb error_is_object events = true ->
  length (List.filter is_finish events) <= 1 ->
  length (responses (run URL (new_session ep padId uuid effects) events)) <= 1.
Proof.
  intros Heff Hobj Hfin.
  pose proof (run_awaited events (new_session ep padId uuid effects) Hobj) as H.
  assert (Hnew : awaited (new_session ep padId uuid effects) = 0).
  { unfold awaited, responses. simpl. rewrite Heff. reflexivity. }
  rewrite Hnew in H. unfold awaited in H. lia.
Qed.

End Steps.

(** ** Requests without a file part *)

(** What a session looks like when the route handler returns it. *)
Lemma post_upload_session (ep : jsval) (padId uuid : string) (ctor : parser_ctor)
    (s0 : session) :
  post_upload ep padId ctor uuid = HSession s0 ->
  exists extensions maxSize baseFolder storage,
    s0 = new_session ep padId uuid
           [ENewUploader extensions maxSize baseFolder storage;
            ENewBusboy maxSize; EPipe]
    /\ truthy (prop ep "storage") = true.
Proof.
  unfold post_upload, prop. intros H.
  destruct (get_prop ep "fileTypes") as [?|extensions]; [discriminate|].
  destruct (get_prop ep "maxFileSize") as [?|maxSize]; [discriminate|].
  destruct (get_prop ep "storage") as [?|storage]; [discriminate|].
  destruct (get_prop storage "baseFolder") as [?|baseFolder]; [discriminate|].
  destruct (truthy storage) eqn:Ht; [|discriminate].
  destruct ctor; [|discriminate].
  injection H as <-. exists extensions, maxSize, baseFolder, storage.
  split; reflexivity.
Qed.

Section NoFilePart.

Variable URL : Url.resolver.

Lemma done_fields (err : jsval) (s : session) :
  uploadResult (done err s).1 = uploadResult s
  /\ uploads (done err s).1 = uploads s.
Proof.
  unfold done. destruct (truthy err); [split; reflexivity|].
  destruct (isDone s); [split; reflexivity|].
  destruct (get_prop err "statusCode"); split; reflexivity.
Qed.

Lemma emit_error_fields (err : jsval) (s : session) :
  uploadResult (emit_error err s).1 = uploadResult s
  /\ uploads (emit_error err s).1 = uploads s.
Proof.
  unfold emit_error. destruct (listening s); [apply done_fields|split; reflexivity].
Qed.

Lemma step_idle (s : session) (e : event) :
  not_file e = true -> idle s -> idle (step URL s e).
Proof.
  intros Hnf [Hr Hu]. unfold idle.
  destruct e as [f m| |err|err| |p o]; simpl in *; try discriminate.
  - rewrite Hu. simpl. auto.
  - rewrite Hu. simpl. auto.
  - destruct (emit_error_fields err s) as [-> ->]. auto.
  - destruct (listening s); [|auto]. unfold on_finish. rewrite Hr. auto.
  - unfold on_settle. rewrite Hu.
    rewrite (bool_decide_eq_false_2 (p < 0)) by lia. simpl. auto.
Qed.

Lemma run_idle (events : list event) (s : session) :
  forallb not_file events = true -> idle s -> idle (run URL s events).
Proof.
  revert s. induction events as [|e events IH]; intros s Hnf Hs; simpl in *.
  - exact Hs.
  - apply andb_prop in Hnf as [He Hrest].
    apply IH; [exact Hrest|]. apply step_idle; assumption.
Qed.

(** With no upload started the finish handler does nothing at all. *)
Lemma finish_idle (s : session) : idle s -> step URL s EvFinish = s.
Proof.
  intros [Hr _]. simpl. destruct (listening s); [|reflexivity].
  unfold on_finish. rewrite Hr. reflexivity.
Qed.

Lemma step_idle_responses (s : session) (e : event) :
  not_file e = true -> error_is_object e = true -> idle s ->
  responses (step URL s e) = responses s.
Proof.
  intros Hnf Hobj [Hr Hu].
  destruct e as [f m| |err|err| |p o]; simpl in *; try discriminate.
  - rewrite Hu. reflexivity.
  - rewrite Hu. reflexivity.
  - rewrite (emit_error_truthy _ _ Hobj).
    destruct (listening s); simpl; rewrite responses_emit; apply app_nil_r.
  - apply (f_equal responses), finish_idle. split; assumption.
  - unfold on_settle. rewrite Hu.
    rewrite (bool_decide_eq_false_2 (p < 0)) by lia. reflexivity.
Qed.

Lemma run_idle_responses (events : list event) (s : session) :
  forallb not_file events = true -> forallb error_is_object events = true ->
  idle s -> responses (run URL s events) = responses s.
Proof.
  revert s. induction events as [|e events IH]; intros s Hnf Hobj Hs; simpl in *.
  - reflexivity.
  - apply andb_prop in Hnf as [He Hrest]. apply andb_prop in Hobj as [Ho Horest].
    rewrite <- (step_idle_responses s e He Ho Hs).
    apply IH; [assumption..|]. apply step_idle; assumption.
Qed.

(** C10: when the body announces no file part, [uploadResult] is still
    unset when the parser finishes, so the finish handler takes neither the
    201 nor the 500 branch and changes nothing; with no error answered
    either, the request ends without any response. *)
Theorem C10_no_file_part_unanswered (ep : jsval) (padId uuid : string)
    (s0 : session) (events : list event) :
  post_upload ep padId CtorOk uuid = HSession s0 ->
  forallb not_file events = true ->
  uploadResult (run URL s0 events) = None
  /\ step URL (run URL s0 events) EvFinish = run URL s0 events
  /\ (forallb error_is_object events = true ->
      responses (run URL s0 (events ++ [EvFinish])) = []).
Proof.
  intros Hpost Hnf.
  destruct (post_upload_session _ _ _ _ _ Hpost) as (x & m & b & st & -> & _).
  match goal with |- context [new_session _ _ _ ?l] => set (effects := l) end.
  assert (Hidle0 : idle (new_session ep padId uuid effects)) by (split; reflexivity).
  pose proof (run_idle events _ Hnf Hidle0) as Hidle.
  split; [apply Hidle|]. split; [apply finish_idle, Hidle|].
  intros Hobj. unfold run. rewrite foldl_app. simpl.
  fold (run URL (new_session ep padId uuid effects) events).
  change (responses (step URL (run URL (new_session ep padId uuid effects) events) EvFinish) = []).
  rewrite (finish_idle _ Hidle).
  rewrite (run_idle_responses events _ Hnf Hobj Hidle0).
  reflexivity.
Qed.

End NoFilePart.

Lemma C10_no_file_part_unanswered_witness :
  uploadResult (run Url.http_resolve (opened s3_settings) [EvError malformed]) = None
  /\ step Url.http_resolve (run Url.http_resolve (opened s3_settings) [EvError malformed])
       EvFinish
     = run Url.http_resolve (opened s3_settings) [EvError malformed]
  /\ (forallb error_is_object [EvError malformed] = true ->
      responses (run Url.http_resolve (opened s3_settings) ([EvError malformed] ++ [EvFinish]))
      = []).
Proof.
  apply (C10_no_file_part_unanswered Url.http_resolve s3_settings pad id
           (opened s3_settings) [EvError malformed]); reflexivity.
Defined.

(** ** Error events *)

(** An instance of what [done_truthy] says: after a size-limit error and a
    parser error on one request, [isDone] is still unset, the listeners are
    still attached and nothing has been answered; a further file part then
    starts a second upload and the finish handler answers 201. *)
Example error_events_leave_session_open :
  let s1 := run Url.http_resolve (opened (local_settings "http://x/files/"))
              [photo; EvLimit; EvError malformed] in
  isDone s1 = false
  /\ listening s1 = true
  /\ responses s1 = []
  /\ log (step Url.http_resolve s1 second_photo)
     = log s1 ++ [EUpload 1 (JStr "image/png")
                    "/tmp/up/pad1/110ec58a-a0f2-4ac4-8393-c866d813b8d1.png"]
  /\ responses (run Url.http_resolve s1
                  [second_photo; EvFinish; EvSettle 1 (Fulfilled JUndefined)])
     = [ERespond (JNum 201)
          (JUrl "http://x/files/pad1/110ec58a-a0f2-4ac4-8393-c866d813b8d1.png")].
Proof. vm_compute. repeat split. Qed.

(** C2: a 5000-byte [photo.png] under [maxFileSize: 1000] makes the parser
    raise ['limit']; the handler logs the 403 error and asks for the
    partial data to be deleted, but writes nothing. The response comes from
    the finish handler: 201 with the URL when the truncated upload
    resolves, 500 when it rejects. *)
Theorem C2_oversized_upload_not_answered_403 :
  let s0 := opened (local_settings "http://x/files/") in
  let events := multipart_events (JNum 1000) [("photo.png", "image/png", 5000%Z)] in
  let s := run Url.http_resolve s0 events in
  events = [photo; EvLimit; EvFinish]
  /\ log s = log s0 ++
       [EUpload 0 (JStr "image/png")
          "/tmp/up/pad1/110ec58a-a0f2-4ac4-8393-c866d813b8d1.png";
        ELogError "EP_IMAGE_UPLOAD UPLOAD ERROR" limit_error;
        EDeletePartials]
  /\ responses (run Url.http_resolve s [EvSettle 0 (Fulfilled JUndefined)])
     = [ERespond (JNum 201)
          (JUrl "http://x/files/pad1/110ec58a-a0f2-4ac4-8393-c866d813b8d1.png")]
  /\ forall err,
       responses (run Url.http_resolve s [EvSettle 0 (Rejected err)])
       = [ERespond (JNum 500) err].
Proof. vm_compute. repeat split. Qed.

(** C3: a successful local upload under [baseURL: "http://x/files"]. The
    trailing slash is added to a local copy of the setting, and the URL is
    resolved against the setting itself, so the last segment of the base is
    replaced; only a base that already ends in ['/'] is kept whole. *)
Theorem C3_local_url_resolved_against_raw_base :
  let events := multipart_events (JNum 1000) [("photo.png", "image/png", 500%Z)]
                ++ [EvSettle 0 (Fulfilled JUndefined)] in
  responses (run Url.http_resolve (opened (local_settings "http://x/files")) events)
  = [ERespond (JNum 201)
       (JUrl "http://x/pad1/110ec58a-a0f2-4ac4-8393-c866d813b8d1.png")]
  /\ responses (run Url.http_resolve (opened (local_settings "http://x/files/")) events)
  = [ERespond (JNum 201)
       (JUrl "http://x/files/pad1/110ec58a-a0f2-4ac4-8393-c866d813b8d1.png")].
Proof. vm_compute. split; reflexivity. Qed.

(** ** What an event adds to the effects *)

Lemma as_string_Some (v : jsval) (x : string) : as_string v = Some x -> v = JStr x.
Proof. destruct v; simpl; intros H; try discriminate. congruence. Qed.

Section Effects.

Variable URL : Url.resolver.

Lemma respond_settled_log (o : settle) (s : session) :
  respond_settled o s = emit (settled_response (accessPath s) o) s.
Proof. destruct o; reflexivity. Qed.

Lemma respond_settled_repeat_log (o : settle) (waiting : list nat) (s : session) :
  log (foldl (fun s _ => respond_settled o s) s waiting)
  = log s ++ List.map (fun _ => settled_response (accessPath s) o) waiting.
Proof.
  revert s. induction waiting as [|p waiting IH]; intros s; simpl.
  - symmetry. apply app_nil_r.
  - rewrite IH, respond_settled_log. simpl. rewrite <- app_assoc. reflexivity.
Qed.

Lemma run_handlers_log (o : settle) (waiting : list nat) (s : session) :
  log (run_handlers o waiting s)
  = log s ++ List.map (fun _ => settled_response (accessPath s) o) waiting.
Proof.
  destruct (run_handlers_foldl o waiting s) as (-> & _).
  apply respond_settled_repeat_log.
Qed.

(** A file part, as long as the parser listens and the name is a string. *)
Lemma on_file_log (filename : string) (mimetype : jsval) (s : session) :
  exists eff,
    log (on_file URL (JStr filename) mimetype s) = log s ++ [eff]
    /\ step_effect s (EvFile (JStr filename) mimetype) eff.
Proof.
  unfold on_file. simpl.
  destruct (truthy (prop (ep s) "storage")
            && is_str (prop (prop (ep s) "storage") "type") "local") eqn:Hlocal.
  - destruct (as_string (prop (prop (ep s) "storage") "baseURL")) as [base|];
      [|eexists; split; [reflexivity|exact I]].
    destruct (URL _ base) as [href|]; [|eexists; split; [reflexivity|exact I]].
    destruct (as_string (prop (prop (ep s) "storage") "baseFolder")) as [folder|] eqn:Hf;
      [|eexists; split; [reflexivity|exact I]].
    eexists. split; [reflexivity|]. simpl. exists filename. split; [reflexivity|].
    unfold storage_key, is_local. rewrite Hlocal.
    exists folder. split; [apply as_string_Some, Hf|reflexivity].
  - eexists. split; [reflexivity|]. simpl. exists filename. split; [reflexivity|].
    unfold storage_key, is_local. rewrite Hlocal. reflexivity.
Qed.

Lemma done_log (err : jsval) (s : session) (e : event) :
  error_is_object e = truthy err ->
  exists added,
    log (done err s).1 = log s ++ added /\ Forall (step_effect s e) added.
Proof.
  intros He. unfold done. destruct (truthy err) eqn:Ht.
  - eexists. split; [reflexivity|]. repeat constructor.
  - destruct (isDone s).
    + exists []. split; [symmetry; apply app_nil_r|constructor].
    + destruct (get_prop err "statusCode") as [x|code].
      * eexists. split; [reflexivity|]. repeat constructor.
      * eexists. split; [simpl; rewrite <- !app_assoc; reflexivity|].
        repeat constructor; exact He.
Qed.

Lemma emit_error_log (err : jsval) (s : session) (e : event) :
  error_is_object e = truthy err ->
  exists added,
    log (emit_error err s).1 = log s ++ added /\ Forall (step_effect s e) added.
Proof.
  intros He. unfold emit_error. destruct (listening s); [apply done_log, He|].
  eexists. split; [reflexivity|]. repeat constructor.
Qed.

Lemma step_log (s : session) (e : event) :
  exists added,
    log (step URL s e) = log s ++ added /\ Forall (step_effect s e) added.
Proof.
  assert (Hnil : exists added,
            log s = log s ++ added /\ Forall (step_effect s e) added).
  { exists []. split; [symmetry; apply app_nil_r|constructor]. }
  destruct e as [f m| |err|err| |p o]; simpl.
  - destruct (listening s); [|exact Hnil].
    destruct f as [| | | |filename| | |];
      try (eexists; split; [reflexivity|]; repeat constructor).
    destruct (on_file_log filename m s) as (eff & Hlog & Heff).
    exists [eff]. split; [exact Hlog|]. repeat constructor. exact Heff.
  - case_bool_decide; [|exact Hnil].
    destruct (listening s) eqn:Hl.
    + rewrite (on_limit_listening _ Hl). eexists. split.
      * simpl. rewrite <- app_assoc. reflexivity.
      * repeat constructor.
    + rewrite (on_limit_deaf _ Hl). eexists. split; [reflexivity|].
      repeat constructor.
  - case_bool_decide; [|exact Hnil]. apply emit_error_log. reflexivity.
  - apply emit_error_log. reflexivity.
  - destruct (listening s); [|exact Hnil]. unfold on_finish.
    destruct (uploadResult s) as [p|]; [|exact Hnil].
    destruct (settled s !! p) as [o|]; [|exact Hnil].
    rewrite respond_settled_log. eexists. split; [reflexivity|].
    destruct o; repeat constructor.
  - unfold on_settle.
    destruct (bool_decide (p < uploads s) && bool_decide (settled s !! p = None));
      [|exact Hnil].
    rewrite run_handlers_log. simpl. eexists. split; [reflexivity|].
    apply Forall_forall. intros eff Hin. apply list_elem_of_In, in_map_iff in Hin.
    destruct Hin as (_ & <- & _). destruct o; exact I.
Qed.

(** The pad, the settings and the id drawn for the request never change. *)
Lemma step_constants (s : session) (e : event) :
  ep (step URL s e) = ep s
  /\ padId (step URL s e) = padId s
  /\ newFileName (step URL s e) = newFileName s.
Proof.
  destruct e as [f m| |err|err| |p o]; simpl.
  - destruct (listening s); [|auto]. unfold on_file.
    repeat match goal with
    | |- context [match ?x with _ => _ end] => destruct x
    end; auto.
  - case_bool_decide; [|auto]. unfold on_limit, emit_error, done. simpl.
    destruct (listening s); auto.
  - case_bool_decide; [|auto]. unfold emit_error, done.
    repeat match goal with
    | |- context [match ?x with _ => _ end] => destruct x
    end; auto.
  - unfold emit_error, done.
    repeat match goal with
    | |- context [match ?x with _ => _ end] => destruct x
    end; auto.
  - destruct (listening s); [|auto]. unfold on_finish.
    destruct (uploadResult s) as [p|]; [|auto].
    destruct (settled s !! p) as [[]|]; auto.
  - unfold on_settle.
    destruct (bool_decide (p < uploads s) && bool_decide (settled s !! p = None));
      [|auto].
    assert (H : forall (w : list nat) s1,
              ep (foldl (fun s _ => respond_settled o s) s1 w) = ep s1
              /\ padId (foldl (fun s _ => respond_settled o s) s1 w) = padId s1
              /\ newFileName (foldl (fun s _ => respond_settled o s) s1 w)
                 = newFileName s1).
    { induction w as [|q w IH]; intros s1; simpl; [auto|].
      destruct (IH (respond_settled o s1)) as (-> & -> & ->).
      destruct o; auto. }
    match goal with
    | |- context [run_handlers o ?w ?s0] =>
        destruct (run_handlers_foldl o w s0) as (_ & _ & _ & _ & _ & -> & -> & -> & _);
        destruct (H w s0) as (-> & -> & ->)
    end.
    auto.
Qed.

Lemma run_constants (events : list event) (s : session) :
  ep (run URL s events) = ep s
  /\ padId (run URL s events) = padId s
  /\ newFileName (run URL s events) = newFileName s.
Proof.
  revert s. induction events as [|e events IH]; intros s; [simpl; auto|].
  change (run URL s (e :: events)) with (run URL (step URL s e) events).
  destruct (IH (step URL s e)) as (-> & -> & ->). apply step_constants.
Qed.

(** The effects of a run extend those of its start, event by event. *)
Lemma run_log (events : list event) (s : session) :
  exists added,
    log (run URL s events) = log s ++ added
    /\ Forall (fun eff => exists e, e ∈ events /\ step_effect s e eff) added.
Proof.
  revert s. induction events as [|e events IH]; intros s.
  - exists []. split; [symmetry; apply app_nil_r|constructor].
  - change (run URL s (e :: events)) with (run URL (step URL s e) events).
    destruct (IH (step URL s e)) as (rest & Hlog & Hrest).
    destruct (step_log s e) as (added & Hstep & Hadded).
    exists (added ++ rest). split.
    + rewrite Hlog, Hstep, app_assoc. reflexivity.
    + apply Forall_app. split.
      * eapply Forall_impl; [exact Hadded|]. intros eff Heff.
        exists e. split; [left|exact Heff].
      * eapply Forall_impl; [exact Hrest|]. intros eff (e' & Hin & Heff).
        exists e'. split; [right; exact Hin|].
        destruct (step_constants s e) as (Hep & Hpad & Hid).
        destruct eff; simpl in *; try exact Heff.
        rewrite Hep, Hpad, Hid in Heff. exact Heff.
Qed.

End Effects.

(** ** Early failures and the request stream *)

(** C6: [req.unpipe], [drainStream] and [removeAllListeners] sit behind the
    first test of [done], which returns on every error object. However a
    request fails, as long as its error events carry error objects the
    request is never unpiped from the parser nor drained. *)
Theorem C6_failed_request_never_drained (URL : Url.resolver) (ep : jsval)
    (padId uuid : string) (s0 : session) (events : list event) :
  post_upload ep padId CtorOk uuid = HSession s0 ->
  forallb error_is_object events = true ->
  List.filter releases_request (log (run URL s0 events)) = [].
Proof.
  intros Hpost Hobj.
  destruct (post_upload_session _ _ _ _ _ Hpost) as (x & m & b & st & -> & _).
  destruct (run_log URL events (new_session ep padId uuid
              [ENewUploader x m b st; ENewBusboy m; EPipe])) as (added & -> & Hadded).
  rewrite List.filter_app. simpl.
  induction Hadded as [|eff added (e & Hin & Heff) _ IH]; [reflexivity|].
  simpl. rewrite IH.
  destruct (releases_request eff) eqn:Hrel; [|reflexivity].
  exfalso.
  assert (Hobj_e : error_is_object e = true).
  { rewrite forallb_forall in Hobj. apply Hobj, list_elem_of_In, Hin. }
  destruct eff; simpl in *; try discriminate; congruence.
Qed.

Lemma C6_failed_request_never_drained_witness :
  List.filter releases_request
    (log (run Url.http_resolve (opened s3_settings)
            [photo; EvLimit; EvError malformed; EvFinish;
             EvSettle 0 (Rejected access_denied)])) = [].
Proof.
  apply (C6_failed_request_never_drained Url.http_resolve s3_settings pad id
           (opened s3_settings)); reflexivity.
Defined.

(** ** Storage keys *)

(** C7 as stated fails: with local storage the key starts with the base
    folder, and two file parts of one request get the same id, hence here
    the same key. *)
Lemma C7_key_counterexample :
  List.filter is_upload
    (log (run Url.http_resolve (opened (local_settings "http://x/files/"))
            [photo; second_photo]))
  = [EUpload 0 (JStr "image/png") "/tmp/up/pad1/110ec58a-a0f2-4ac4-8393-c866d813b8d1.png";
     EUpload 1 (JStr "image/png") "/tmp/up/pad1/110ec58a-a0f2-4ac4-8393-c866d813b8d1.png"]
  /\ "/tmp/up/pad1/110ec58a-a0f2-4ac4-8393-c866d813b8d1.png"
     <> pad +:+ "/" +:+ id +:+ ".png".
Proof. split; [vm_compute; reflexivity|discriminate]. Qed.

(** ** One response, the size limit, and the key of each part *)

Section Listening.

Variable URL : Url.resolver.

Lemma respond_settled_repeat_listening (o : settle) (w : list nat) (s : session) :
  listening (foldl (fun s _ => respond_settled o s) s w) = listening s.
Proof.
  revert s. induction w as [|q w IH]; intros s; simpl; [reflexivity|].
  rewrite IH. destruct o; reflexivity.
Qed.

(** Error objects never make the parser lose its listeners. *)
Lemma step_listening (s : session) (e : event) :
  error_is_object e = true -> listening (step URL s e) = listening s.
Proof.
  intros Hobj. destruct e as [f m| |err|err| |p o]; simpl in *.
  - destruct (listening s) eqn:Hl; [|exact Hl]. unfold on_file.
    repeat match goal with
    | |- context [match ?x with _ => _ end] => destruct x
    end; exact Hl.
  - case_bool_decide; [|reflexivity].
    destruct (listening s) eqn:Hl;
      [rewrite (on_limit_listening _ Hl)|rewrite (on_limit_deaf _ Hl)]; exact Hl.
  - case_bool_decide; [|reflexivity]. rewrite (emit_error_truthy _ _ Hobj).
    destruct (listening s) eqn:Hl; exact Hl.
  - rewrite (emit_error_truthy _ _ Hobj). destruct (listening s) eqn:Hl; exact Hl.
  - destruct (listening s) eqn:Hl; [|exact Hl]. unfold on_finish.
    destruct (uploadResult s) as [p|]; [|exact Hl].
    destruct (settled s !! p) as [[]|]; exact Hl.
  - unfold on_settle.
    destruct (bool_decide (p < uploads s) && bool_decide (settled s !! p = None));
      [|reflexivity].
    match goal with
    | |- context [run_handlers o ?w ?s0] =>
        destruct (run_handlers_foldl o w s0) as (_ & _ & _ & _ & _ & _ & _ & _ & ->)
    end.
    rewrite respond_settled_repeat_listening. reflexivity.
Qed.

Lemma run_listening (events : list event) (s : session) :
  forallb error_is_object events = true ->
  listening (run URL s events) = listening s.
Proof.
  revert s. induction events as [|e events IH]; intros s Hobj; [reflexivity|].
  simpl in Hobj. apply andb_prop in Hobj as [He Hrest].
  change (run URL s (e :: events)) with (run URL (step URL s e) events).
  rewrite (IH _ Hrest). apply step_listening, He.
Qed.





(** C7, as the code has it: each file part of a request starts one upload
    whose key is made from that part's own name:
    [path.join(padId, id + extname(filename))], below [baseFolder] when the
    storage is local, where [id] is the one value drawn from [uuid.v4] when
    the request arrived, the same for every part of the request whatever
    came before, and independent of any file name. When the listener throws
    instead (unusable local settings), it adds no upload under another
    key. *)
Theorem C7_storage_key_of_each_file_part (ep : jsval) (padId uuid : string)
    (ctor : parser_ctor) (s0 : session) (before : list event)
    (filename : string) (mimetype : jsval) :
  post_upload ep padId ctor uuid = HSession s0 ->
  forallb error_is_object before = true ->
  let s := run URL s0 before in
  let part := EvFile (JStr filename) mimetype in
  let saved := Path.join padId (uuid +:+ Path.extname filename) in
  (is_local ep = false ->
   log (step URL s part) = log s ++ [EUpload (uploads s) mimetype saved])
  /\ (forall baseURL baseFolder href,
        is_local ep = true ->
        prop (prop ep "storage") "baseURL" = JStr baseURL ->
        prop (prop ep "storage") "baseFolder" = JStr baseFolder ->
        URL saved baseURL = Some href ->
        log (step URL s part)
        = log s ++ [EUpload (uploads s) mimetype (Path.join baseFolder saved)])
  /\ (forall p t key,
        EUpload p t key ∈ log (step URL s part) ->
        EUpload p t key ∈ log s
        \/ (p = uploads s /\ t = mimetype /\ storage_key ep padId uuid filename key)).
Proof.
  intros Hpost Hobj s part saved.
  destruct (post_upload_session _ _ _ _ _ Hpost) as (x & m & b & st & Hs0 & _).
  assert (Hl : listening s = true).
  { unfold s. rewrite (run_listening before s0 Hobj), Hs0. reflexivity. }
  destruct (run_constants URL before s0) as (Hep & Hpad & Hid).
  fold s in Hep, Hpad, Hid. rewrite Hs0 in Hep, Hpad, Hid. simpl in Hep, Hpad, Hid.
  split; [|split].
  - intros Hlocal. unfold part. simpl. rewrite Hl. unfold on_file. simpl.
    unfold is_local in Hlocal. rewrite Hep, Hpad, Hid, Hlocal. reflexivity.
  - intros baseURL baseFolder href Hlocal Hbase Hfolder Hurl.
    unfold part. simpl. rewrite Hl. unfold on_file. simpl.
    unfold is_local in Hlocal. rewrite Hep, Hpad, Hid, Hlocal, Hbase, Hfolder. simpl.
    fold saved. rewrite Hurl. reflexivity.
  - intros p t key Hin. unfold part in Hin. simpl in Hin. rewrite Hl in Hin.
    unfold on_file in Hin. simpl in Hin. rewrite Hep, Hpad, Hid in Hin.
    fold saved in Hin. unfold storage_key, is_local. fold saved.
    destruct (truthy (prop ep "storage")
              && is_str (prop (prop ep "storage") "type") "local").
    + destruct (as_string (prop (prop ep "storage") "baseURL")) as [base|];
        [|simpl in Hin; apply elem_of_app in Hin as [Hin|Hin];
          [left; exact Hin|apply list_elem_of_singleton in Hin; discriminate]].
      destruct (URL saved base) as [href|];
        [|simpl in Hin; apply elem_of_app in Hin as [Hin|Hin];
          [left; exact Hin|apply list_elem_of_singleton in Hin; discriminate]].
      destruct (as_string (prop (prop ep "storage") "baseFolder")) as [folder|] eqn:Hf;
        [|simpl in Hin; apply elem_of_app in Hin as [Hin|Hin];
          [left; exact Hin|apply list_elem_of_singleton in Hin; discriminate]].
      simpl in Hin. apply elem_of_app in Hin as [Hin|Hin]; [left; exact Hin|].
      apply list_elem_of_singleton in Hin. injection Hin as -> -> ->.
      right. split; [reflexivity|]. split; [reflexivity|].
      exists folder. split; [apply as_string_Some, Hf|reflexivity].
    + simpl in Hin. apply elem_of_app in Hin as [Hin|Hin]; [left; exact Hin|].
      apply list_elem_of_singleton in Hin. injection Hin as -> -> ->.
      right. auto.
Qed.

End Listening.



Lemma C7_storage_key_of_each_file_part_witness :
  let s := run Url.http_resolve (opened s3_settings) [photo; EvLimit] in
  let part := EvFile (JStr "../../evil.html") (JStr "text/html") in
  let saved := Path.join pad (id +:+ Path.extname "../../evil.html") in
  (is_local s3_settings = false ->
   log (step Url.http_resolve s part)
   = log s ++ [EUpload (uploads s) (JStr "text/html") saved])
  /\ (forall baseURL baseFolder href,
        is_local s3_settings = true ->
        prop (prop s3_settings "storage") "baseURL" = JStr baseURL ->
        prop (prop s3_settings "storage") "baseFolder" = JStr baseFolder ->
        Url.http_resolve saved baseURL = Some href ->
        log (step Url.http_resolve s part)
        = log s ++ [EUpload (uploads s) (JStr "text/html") (Path.join baseFolder saved)])
  /\ (forall p t key,
        EUpload p t key ∈ log (step Url.http_resolve s part) ->
        EUpload p t key ∈ log s
        \/ (p = uploads s /\ t = JStr "text/html"
            /\ storage_key s3_settings pad id "../../evil.html" key)).
Proof.
  apply (C7_storage_key_of_each_file_part Url.http_resolve s3_settings pad id CtorOk
           (opened s3_settings) [photo; EvLimit] "../../evil.html" (JStr "text/html")).
  - reflexivity.
  - reflexivity.
Defined.

(** ** The response of the finish handler *)

Lemma filter_eqb_absent (p : nat) (l : list nat) :
  p ∉ l -> List.filter (Nat.eqb p) l = [].
Proof.
  induction l as [|q l IH]; intros Hp; simpl; [reflexivity|].
  apply not_elem_of_cons in Hp as [Hne Hp].
  destruct (Nat.eqb_spec p q); [contradiction|]. apply IH, Hp.
Qed.

(** C5, as the code has it: when the parser finishes on an upload whose
    promise settles (before or after), one response is written: 201 with
    the descriptor (the access URL when one was computed, else what the
    back end resolved with) when the promise is fulfilled, and 500 with the
    rejection as body when it is rejected, whatever [statusCode] the
    rejection carries. *)
Theorem C5_finish_response (URL : Url.resolver) (s : session) (p : nat) (o : settle) :
  listening s = true ->
  uploadResult s = Some p ->
  p < uploads s ->
  settled s !! p = None ->
  p ∉ pending s ->
  let response :=
    match o with
    | Fulfilled data =>
        ERespond (JNum 201) (if truthy (accessPath s) then accessPath s else data)
    | Rejected err => ERespond (JNum 500) err
    end in
  log (run URL s [EvFinish; EvSettle p o]) = log s ++ [response]
  /\ log (run URL s [EvSettle p o; EvFinish]) = log s ++ [response].
Proof.
  intros Hl Hr Hp Hs Hpend response. split.
  - simpl. rewrite Hl. unfold on_finish. rewrite Hr, Hs.
    unfold on_settle. simpl.
    rewrite bool_decide_eq_true_2 by exact Hp.
    rewrite bool_decide_eq_true_2 by exact Hs. simpl.
    rewrite Nat.eqb_refl, (filter_eqb_absent _ _ Hpend). simpl.
    destruct o; reflexivity.
  - simpl. unfold on_settle.
    rewrite bool_decide_eq_true_2 by exact Hp.
    rewrite bool_decide_eq_true_2 by exact Hs. simpl.
    rewrite (filter_eqb_absent _ _ Hpend).
    destruct o; simpl; rewrite Hl; unfold on_finish; simpl;
      rewrite Hr, lookup_insert_eq; reflexivity.
Qed.

Lemma C5_finish_response_witness :
  let s := run Url.http_resolve (opened s3_settings) [photo] in
  log (run Url.http_resolve s [EvFinish; EvSettle 0 (Fulfilled stored)])
    = log s ++ [ERespond (JNum 201) stored]
  /\ log (run Url.http_resolve s [EvSettle 0 (Fulfilled stored); EvFinish])
    = log s ++ [ERespond (JNum 201) stored].
Proof.
  apply (C5_finish_response Url.http_resolve
           (run Url.http_resolve (opened s3_settings) [photo]) 0 (Fulfilled stored)).
  - reflexivity.
  - reflexivity.
  - vm_compute. lia.
  - reflexivity.
  - simpl. apply not_elem_of_nil.
Defined.

(** C5 as stated fails: a storage error with [statusCode] 403 is answered
    with status 500, not with the status it carries. *)
Lemma C5_rejection_status_counterexample :
  let s := run Url.http_resolve (opened s3_settings)
             [photo; EvFinish; EvSettle 0 (Rejected access_denied)] in
  responses s = [ERespond (JNum 500) access_denied]
  /\ mirrored_status access_denied = JNum 403.
Proof. vm_compute. split; reflexivity. Qed.

(** ** The [clientVars] hook *)

Section CopyKeys.

Implicit Types (acc : gmap string jsval) (l : list (string * jsval)).

Lemma copy_key_storage acc l :
  foldl copy_key acc l !! "storage" = acc !! "storage".
Proof.
  revert acc. induction l as [|[k v] l IH]; intros acc; simpl; [reflexivity|].
  rewrite IH. unfold copy_key. simpl.
  destruct (String.eqb_spec k "storage") as [->|Hne]; simpl; [reflexivity|].
  destruct (String.eqb k "__proto__"); [reflexivity|].
  apply lookup_insert_ne. exact Hne.
Qed.

(** No own ['__proto__'] property comes out of the assignments. *)
Lemma copy_key_proto acc l :
  foldl copy_key acc l !! "__proto__" = acc !! "__proto__".
Proof.
  revert acc. induction l as [|[k v] l IH]; intros acc; simpl; [reflexivity|].
  rewrite IH. unfold copy_key. simpl.
  destruct (String.eqb k "storage"); simpl; [reflexivity|].
  destruct (String.eqb_spec k "__proto__") as [->|Hne]; [reflexivity|].
  apply lookup_insert_ne. exact Hne.
Qed.

Lemma copy_key_absent acc l (k : string) :
  k ∉ l.*1 -> foldl copy_key acc l !! k = acc !! k.
Proof.
  revert acc. induction l as [|[k' v] l IH]; intros acc Hk; simpl; [reflexivity|].
  simpl in Hk. apply not_elem_of_cons in Hk as [Hne Hk].
  rewrite (IH _ Hk). unfold copy_key. simpl.
  destruct (String.eqb k' "storage"); simpl; [reflexivity|].
  destruct (String.eqb k' "__proto__"); [reflexivity|].
  apply lookup_insert_ne. congruence.
Qed.

Lemma copy_key_present acc l (k : string) (v : jsval) :
  NoDup l.*1 -> (k, v) ∈ l -> k <> "storage" -> k <> "__proto__" ->
  foldl copy_key acc l !! k = Some v.
Proof.
  revert acc. induction l as [|[k' v'] l IH]; intros acc Hnd Hin Hne Hproto; simpl.
  - inversion Hin.
  - simpl in Hnd. apply NoDup_cons in Hnd as [Hfresh Hnd].
    apply elem_of_cons in Hin as [Heq|Hin].
    + injection Heq as <- <-. rewrite (copy_key_absent _ _ _ Hfresh).
      unfold copy_key. simpl.
      destruct (String.eqb_spec k "storage") as [?|_]; [contradiction|]. simpl.
      destruct (String.eqb_spec k "__proto__") as [?|_]; [contradiction|].
      apply lookup_insert_eq.
    + apply IH; assumption.
Qed.

(** After [keys.forEach], the own properties of [pluginSettings] are every
    key of the settings but ['storage'] and ['__proto__'], over what it
    held before. *)
Lemma copy_keys_lookup acc (settings : gmap string jsval) (k : string) :
  foldl copy_key acc (map_to_list settings) !! k
  = if String.eqb k "storage" || String.eqb k "__proto__" then acc !! k
    else match settings !! k with
         | Some v => Some v
         | None => acc !! k
         end.
Proof.
  destruct (String.eqb_spec k "storage") as [->|Hne]; [apply copy_key_storage|].
  destruct (String.eqb_spec k "__proto__") as [->|Hproto]; [apply copy_key_proto|].
  simpl. destruct (settings !! k) as [v|] eqn:Hk.
  - apply copy_key_present; [apply NoDup_fst_map_to_list| |exact Hne|exact Hproto].
    apply elem_of_map_to_list, Hk.
  - apply copy_key_absent. intros Hin.
    apply list_elem_of_fmap in Hin as ([k' v] & -> & Hin).
    apply elem_of_map_to_list in Hin. simpl in Hk. congruence.
Qed.

End CopyKeys.

(** The hook's output, key by key. *)
Lemma exposed_lookup (mimetypes : jsval) (settings : gmap string jsval) (k : string) :
  exposed mimetypes (JObj settings) !! k
  = if String.eqb k "mimeTypes" then Some mimetypes
    else if String.eqb k "storageType" then
      Some (default (default (JStr "base64") (settings !! "storageType"))
              (storage_view settings))
    else if String.eqb k "storage" || String.eqb k "__proto__" then None
    else settings !! k.
Proof.
  unfold exposed, clientVars. simpl. rewrite lookup_singleton_eq.
  destruct (String.eqb_spec k "mimeTypes") as [->|Hmime]; [apply lookup_insert_eq|].
  rewrite lookup_insert_ne by congruence.
  unfold plugin_settings, storage_view. simpl.
  destruct (truthy (default JUndefined (settings !! "storage"))
            && negb (is_str (storage_type (default JUndefined (settings !! "storage")))
                       "base64")).
  - destruct (String.eqb_spec k "storageType") as [->|Htype]; [apply lookup_insert_eq|].
    rewrite lookup_insert_ne by congruence. rewrite copy_keys_lookup.
    destruct (String.eqb k "storage" || String.eqb k "__proto__");
      [apply lookup_singleton_ne; congruence|].
    destruct (settings !! k); [reflexivity|].
    apply lookup_singleton_ne. congruence.
  - rewrite copy_keys_lookup.
    destruct (String.eqb_spec k "storageType") as [->|Htype].
    + simpl. destruct (settings !! "storageType"); [reflexivity|].
      apply lookup_singleton_eq.
    + destruct (String.eqb k "storage" || String.eqb k "__proto__");
        [apply lookup_singleton_ne; congruence|].
      destruct (settings !! k); [reflexivity|].
      apply lookup_singleton_ne. congruence.
Qed.

(** C8, as the code has it: the client never receives a ['storage'] key,
    nor an own ['__proto__'] key (that assignment goes to the prototype
    setter); [mimeTypes] is the table of recognized types and [storageType]
    is the type of the storage when one is set and is not ['base64'],
    whatever the settings hold under these two names (otherwise
    [storageType] is the setting of that name, or ['base64']); every other
    key of the settings is passed on unchanged. *)
Theorem C8_client_vars_exposure (mimetypes : jsval) (settings : gmap string jsval) :
  let out := exposed mimetypes (JObj settings) in
  out !! "storage" = None
  /\ out !! "__proto__" = None
  /\ out !! "mimeTypes" = Some mimetypes
  /\ out !! "storageType"
     = Some (default (default (JStr "base64") (settings !! "storageType"))
               (storage_view settings))
  /\ forall k,
       k <> "storage" -> k <> "__proto__" ->
       k <> "storageType" -> k <> "mimeTypes" ->
       out !! k = settings !! k.
Proof.
  simpl. repeat split; try (rewrite exposed_lookup; reflexivity).
  intros k Hst Hproto Htype Hmime. rewrite exposed_lookup.
  destruct (String.eqb_spec k "mimeTypes"); [contradiction|].
  destruct (String.eqb_spec k "storageType"); [contradiction|].
  destruct (String.eqb_spec k "storage"); [contradiction|].
  destruct (String.eqb_spec k "__proto__"); [contradiction|]. reflexivity.
Qed.

Lemma set_prototype_absent (proto : option jsval) (l : list (string * jsval)) :
  "__proto__" ∉ l.*1 -> foldl set_prototype proto l = proto.
Proof.
  revert proto. induction l as [|[k v] l IH]; intros proto Hk; simpl; [reflexivity|].
  simpl in Hk. apply not_elem_of_cons in Hk as [Hne Hk].
  rewrite (IH _ Hk). unfold set_prototype. simpl.
  destruct (String.eqb_spec k "__proto__"); [congruence|reflexivity].
Qed.

(** A ['__proto__'] key of the settings ends up as the prototype of the
    variables object when its value is an object or [null], and nowhere
    otherwise. *)
Lemma plugin_prototype_of_settings (settings : gmap string jsval) :
  plugin_prototype (JObj settings)
  = match settings !! "__proto__" with
    | Some v => set_prototype None ("__proto__", v)
    | None => None
    end.
Proof.
  unfold plugin_prototype. simpl.
  pose proof (NoDup_fst_map_to_list settings) as Hnd.
  assert (Hin : forall v, ("__proto__", v) ∈ map_to_list settings
                          <-> settings !! "__proto__" = Some v)
    by (intros v; apply elem_of_map_to_list).
  revert Hnd Hin. generalize (map_to_list settings). intros l.
  cut (forall proto : option jsval,
         NoDup l.*1 ->
         (forall v, ("__proto__", v) ∈ l <-> settings !! "__proto__" = Some v) ->
         foldl set_prototype proto l
         = match settings !! "__proto__" with
           | Some v => set_prototype proto ("__proto__", v)
           | None => proto
           end); [intros H; apply H|].
  induction l as [|[k v] l IH]; intros proto Hnd Hin; simpl.
  - destruct (settings !! "__proto__") as [v|]; [|reflexivity].
    pose proof (proj2 (Hin v) eq_refl) as Hv. inversion Hv.
  - simpl in Hnd. apply NoDup_cons in Hnd as [Hfresh Hnd].
    destruct (String.eqb_spec k "__proto__") as [->|Hne].
    + rewrite (set_prototype_absent _ _ Hfresh).
      rewrite (proj1 (Hin v) ltac:(left)). destruct v; reflexivity.
    + replace (set_prototype proto (k, v)) with proto
        by (unfold set_prototype; simpl;
            destruct (String.eqb_spec k "__proto__"); [contradiction|reflexivity]).
      apply IH; [exact Hnd|]. intros v'. rewrite <- Hin. split.
      * intros H. right. exact H.
      * intros H. apply elem_of_cons in H as [H|H]; [congruence|exact H].
Qed.

(** C8 as stated fails: settings that have a [mimeTypes] or a
    [storageType] key of their own do not reach the client under these
    names. *)
Lemma C8_shadowed_keys_counterexample :
  let out := exposed (JObj ∅) (JObj shadowing_settings) in
  shadowing_settings !! "mimeTypes" = Some (JArr [JStr "image/png"])
  /\ out !! "mimeTypes" = Some (JObj ∅)
  /\ shadowing_settings !! "storageType" = Some (JStr "custom")
  /\ out !! "storageType" = Some (JStr "s3").
Proof. vm_compute. repeat split. Qed.

(** X14: nothing of the [storage] object but its type reaches the client: two
    settings that differ only inside [storage], with the same type, give
    the client the same variables. *)
Lemma client_vars_hide_storage (mimetypes : jsval) (a b : gmap string jsval) :
  delete "storage" a = delete "storage" b ->
  storage_view a = storage_view b ->
  exposed mimetypes (JObj a) = exposed mimetypes (JObj b).
Proof.
  intros Hrest Hview. apply map_eq. intros k. rewrite !exposed_lookup, Hview.
  assert (Hk : forall j : string, j <> "storage" -> a !! j = b !! j).
  { intros j Hne. rewrite <- (lookup_delete_ne a "storage" j) by congruence.
    rewrite Hrest. apply lookup_delete_ne. congruence. }
  rewrite (Hk "storageType") by discriminate.
  destruct (String.eqb k "mimeTypes"); [reflexivity|].
  destruct (String.eqb k "storageType"); [reflexivity|].
  destruct (String.eqb_spec k "storage"); [reflexivity|].
  destruct (String.eqb k "__proto__"); [reflexivity|]. apply Hk. assumption.
Qed.

(** The README keeps the bucket credentials under [s3], not under
    [storage]; the hook hands that object to the client as it is. *)
Example readme_credentials_exposed (mimetypes : jsval) :
  exposed mimetypes readme_settings !! "s3" = Some s3_storage
  /\ prop s3_storage "secretAccessKey" = JStr "SECRETEXAMPLE".
Proof. split; reflexivity. Qed.

(** With no settings at all the hook installs an empty object and reports
    the default storage type. *)
Lemma client_vars_unset (mimetypes : jsval) :
  clientVars mimetypes JUndefined
  = (JObj ∅,
     CbVars (JObj {[ "ep_image_upload" :=
                       JObj (<["mimeTypes" := mimetypes]>
                               {[ "storageType" := JStr "base64" ]}) ]})).
Proof. reflexivity. Qed.

(** ** The access URL of a local upload *)

(** Whatever [url.URL] computes, a file part under local storage with
    string settings sets [accessPath] to the URL of the saved name resolved
    against the [baseURL] setting as it stands; the copy that got its
    trailing slash is not what the resolver receives. *)
Lemma on_file_access_path (URL : Url.resolver) (s : session)
    (filename baseURL baseFolder href : string) (mimetype : jsval) :
  is_local (ep s) = true ->
  prop (prop (ep s) "storage") "baseURL" = JStr baseURL ->
  prop (prop (ep s) "storage") "baseFolder" = JStr baseFolder ->
  URL (Path.join (padId s) (newFileName s +:+ Path.extname filename)) baseURL
    = Some href ->
  accessPath (on_file URL (JStr filename) mimetype s) = JUrl href.
Proof.
  unfold is_local, on_file. intros -> -> -> Hurl. simpl.
  rewrite Hurl. reflexivity.
Qed.

(** When the configured base already ends in a slash, the modelled
    resolver appends the saved name to it. *)
Example local_url_with_trailing_slash :
  Url.http_resolve (Path.join pad (id +:+ Path.extname "photo.png")) "http://x/files/"
  = Some ("http://x/files/" +:+ pad +:+ "/" +:+ id +:+ ".png").
Proof. vm_compute. reflexivity. Qed.

(** ** Keys of ordinary pads *)

Section PlainPaths.

Import Path.

Implicit Types (l seg : list ascii) (x y : string).

Lemma list_of_append x y :
  String.list_ascii_of_string (x +:+ y)
  = String.list_ascii_of_string x ++ String.list_ascii_of_string y.
Proof. induction x as [|c x IH]; simpl; [reflexivity|]. f_equal. exact IH. Qed.

Lemma seg_eqb_spec l1 l2 : reflect (l1 = l2) (seg_eqb l1 l2).
Proof.
  unfold seg_eqb.
  destruct (String.eqb_spec (String.string_of_list_ascii l1)
              (String.string_of_list_ascii l2)) as [Heq|Hne]; constructor.
  - rewrite <- (String.list_ascii_of_string_of_list_ascii l1),
            <- (String.list_ascii_of_string_of_list_ascii l2), Heq.
    reflexivity.
  - intros ->. contradiction.
Qed.

Lemma split_slash_plain l : no_slash l -> split_slash l = [l].
Proof.
  unfold no_slash.
  induction l as [|c l IH]; simpl; intros H; [reflexivity|].
  apply andb_prop in H as [Hc Hl]. apply negb_true_iff in Hc.
  rewrite Hc, (IH Hl). reflexivity.
Qed.

Lemma split_slash_app l1 l2 :
  no_slash l1 -> split_slash (l1 ++ slash :: l2) = l1 :: split_slash l2.
Proof.
  unfold no_slash.
  induction l1 as [|c l1 IH]; simpl; intros H; [reflexivity|].
  apply andb_prop in H as [Hc Hl]. apply negb_true_iff in Hc.
  rewrite Hc, (IH Hl). reflexivity.
Qed.

(** Every segment of a split path is free of slashes. *)
Lemma split_slash_segments l : Forall no_slash (split_slash l).
Proof.
  unfold no_slash.
  induction l as [|c l IH]; simpl; [repeat constructor|].
  destruct (is_slash c) eqn:Hc; [constructor; [reflexivity|exact IH]|].
  destruct (split_slash l) as [|seg segs]; [repeat constructor; simpl; rewrite Hc; reflexivity|].
  inversion IH as [|? ? Hseg Hsegs]; subst.
  constructor; [|exact Hsegs]. simpl. rewrite Hc. exact Hseg.
Qed.

Lemma last_dot_suffix seg (i : nat) (ext : list ascii) :
  last_dot seg = Some (i, ext) -> exists pre, seg = pre ++ ext.
Proof.
  revert i ext. induction seg as [|c seg IH]; simpl; intros i ext H; [discriminate|].
  destruct (last_dot seg) as [[j ext']|].
  - injection H as <- <-. destruct (IH j ext' eq_refl) as [pre ->].
    exists (c :: pre). reflexivity.
  - destruct (is_dot c); [|discriminate]. injection H as <- <-.
    exists []. reflexivity.
Qed.

(** An extension never contains a slash. *)
Lemma extname_slash_free x : slash_free (extname x) = true.
Proof.
  unfold slash_free, extname.
  destruct (List.filter nonempty (rev (split_slash (String.list_ascii_of_string x))))
    as [|base rest] eqn:Hf; [reflexivity|].
  destruct (seg_eqb base [dot; dot]); [reflexivity|].
  destruct (last_dot base) as [[[|i] ext]|] eqn:Hd; try reflexivity.
  rewrite String.list_ascii_of_string_of_list_ascii.
  destruct (last_dot_suffix _ _ _ Hd) as [pre ->].
  assert (Hbase : no_slash (pre ++ ext)).
  { pose proof (split_slash_segments (String.list_ascii_of_string x)) as Hall.
    rewrite Forall_forall in Hall. apply Hall.
    apply list_elem_of_In, in_rev. 
    assert (Hin : In (pre ++ ext) (List.filter nonempty
                    (rev (split_slash (String.list_ascii_of_string x)))))
      by (rewrite Hf; left; reflexivity).
    apply filter_In in Hin as [Hin _]. exact Hin. }
  unfold no_slash in Hbase.
  rewrite forallb_app in Hbase. apply andb_prop in Hbase as [_ Hext]. exact Hext.
Qed.

Lemma last_is_slash_app l1 (c : ascii) l2 :
  no_slash (c :: l2) -> last_is_slash (l1 ++ slash :: c :: l2) = false.
Proof.
  intros H. unfold last_is_slash.
  assert (Hrev : exists d rest,
            rev (l1 ++ slash :: c :: l2) = d :: rest /\ In d (c :: l2)).
  { destruct (rev (c :: l2)) as [|d rest] eqn:Hr.
    - apply (f_equal (@length ascii)) in Hr. rewrite length_rev in Hr. discriminate.
    - exists d, (rest ++ slash :: rev l1). split.
      + change (l1 ++ slash :: c :: l2) with (l1 ++ [slash] ++ c :: l2).
        rewrite !rev_app_distr, Hr. simpl. rewrite <- app_assoc. reflexivity.
      + apply in_rev. rewrite Hr. left. reflexivity. }
  destruct Hrev as (d & rest & -> & Hd).
  unfold no_slash in H.
  rewrite forallb_forall in H. apply H in Hd.
  apply negb_true_iff in Hd. exact Hd.
Qed.

Lemma normalize_plain_pair l1 l2 :
  plain l1 -> plain l2 ->
  normalize (String.string_of_list_ascii (l1 ++ slash :: l2))
  = String.string_of_list_ascii (l1 ++ slash :: l2).
Proof.
  intros (Hs1 & Hn1 & Hd1 & Hdd1) (Hs2 & Hn2 & Hd2 & Hdd2).
  unfold normalize. rewrite String.list_ascii_of_string_of_list_ascii.
  destruct l1 as [|c1 l1]; [contradiction|].
  destruct l2 as [|c2 l2]; [contradiction|].
  simpl app at 1. cbv iota beta zeta.
  assert (Hc1 : is_slash c1 = false).
  { unfold no_slash in Hs1. simpl in Hs1. apply andb_prop in Hs1 as [H _].
    apply negb_true_iff in H. exact H. }
  rewrite Hc1. simpl negb.
  change (c1 :: l1 ++ slash :: c2 :: l2) with ((c1 :: l1) ++ slash :: c2 :: l2).
  rewrite (last_is_slash_app _ _ _ Hs2).
  rewrite (split_slash_app _ _ Hs1), (split_slash_plain _ Hs2).
  assert (Hstep : forall seg stack,
            seg <> [] -> seg <> [dot] -> seg <> [dot; dot] ->
            forall rest, normalize_segs true stack (seg :: rest)
                         = normalize_segs true (seg :: stack) rest).
  { intros seg stack H0 H1 H2 rest. simpl.
    destruct seg as [|c seg]; [contradiction|]. simpl.
    destruct (seg_eqb_spec (c :: seg) [dot]); [contradiction|].
    destruct (seg_eqb_spec (c :: seg) [dot; dot]); [contradiction|].
    reflexivity. }
  rewrite !Hstep by assumption. simpl. reflexivity.
Qed.

(** Joining a plain segment and a plain name puts one slash between them. *)
Lemma join_plain x y :
  plain_segment x = true -> plain_segment y = true ->
  join x y = x +:+ "/" +:+ y.
Proof.
  assert (Hplain : forall z, plain_segment z = true ->
            plain (String.list_ascii_of_string z) /\ z <> "").
  { intros z Hz. unfold plain_segment, slash_free in Hz.
    repeat (apply andb_prop in Hz as [Hz ?]).
    repeat match goal with
    | H : negb (String.eqb _ _) = true |- _ =>
        apply negb_true_iff, String.eqb_neq in H
    end.
    split; [|assumption]. split; [exact Hz|].
    repeat split; intros Heq;
      apply (f_equal String.string_of_list_ascii) in Heq;
      rewrite String.string_of_list_ascii_of_string in Heq; contradiction. }
  intros Hx Hy.
  destruct (Hplain x Hx) as [Hpx Hnx]. destruct (Hplain y Hy) as [Hpy Hny].
  unfold join. destruct x as [|cx x]; [contradiction|].
  destruct y as [|cy y]; [contradiction|].
  rewrite <- (String.string_of_list_ascii_of_string (String cx x +:+ "/" +:+ String cy y)).
  rewrite !list_of_append.
  apply (normalize_plain_pair _ _ Hpx Hpy).
Qed.

Lemma plain_id_name (uuid ext : string) :
  plain_id uuid = true -> slash_free ext = true ->
  plain_segment (uuid +:+ ext) = true.
Proof.
  unfold plain_id, plain_segment, slash_free. intros Hid Hext.
  apply andb_prop in Hid as [Hfree Hhead].
  rewrite list_of_append, forallb_app, Hfree, Hext.
  destruct uuid as [|c uuid]; [discriminate|].
  apply negb_true_iff in Hhead. unfold is_dot, dot in Hhead.
  change (String c uuid +:+ ext) with (String c (uuid +:+ ext)).
  cbn [String.eqb andb negb]. rewrite Hhead. reflexivity.
Qed.

(** X15: for a pad id that is a plain segment and a plain id, the key of a
    bucket upload is literally [<padId>/<id><ext>], whatever the original
    file name. *)
Lemma storage_key_plain (ep : jsval) (padId uuid filename : string) :
  is_local ep = false ->
  plain_segment padId = true -> plain_id uuid = true ->
  storage_key ep padId uuid filename
    (padId +:+ "/" +:+ uuid +:+ extname filename).
Proof.
  intros Hloc Hpad Hid. unfold storage_key. rewrite Hloc.
  symmetry. apply join_plain; [exact Hpad|].
  apply plain_id_name; [exact Hid|apply extname_slash_free].
Qed.

End PlainPaths.

(** * Further properties of the hooks *)

Import PadRemove Coverage.

(** ** The guard of [done] *)

Ltac handler_cases :=
  repeat match goal with
  | |- context [match ?x with _ => _ end] => destruct x eqn:?
  end.

Lemma filter_repeat_none {A} (f : A -> bool) (x : A) (w : list nat) :
  f x = false -> List.filter f (List.map (fun _ => x) w) = [].
Proof. intros H. induction w as [|q w IH]; simpl; [reflexivity|]. rewrite H. exact IH. Qed.

Lemma respond_settled_repeat_isDone (o : settle) (w : list nat) (s : session) :
  isDone (foldl (fun s _ => respond_settled o s) s w) = isDone s.
Proof.
  revert s. induction w as [|q w IH]; intros s; simpl; [reflexivity|].
  rewrite IH. destruct o; reflexivity.
Qed.

Section Guard.

Variable URL : Url.resolver.

Lemma done_guarded (err : jsval) (s : session) :
  guarded s -> guarded (done err s).1.
Proof.
  unfold guarded, done. intros [Hnone|[Hdone Hrel]].
  - handler_cases; simpl; rewrite ?List.filter_app; simpl;
      rewrite ?Hnone; simpl; auto.
  - rewrite Hdone. handler_cases; simpl; rewrite ?List.filter_app; simpl;
      rewrite ?Hrel; simpl; auto.
Qed.

Lemma step_guarded (s : session) (e : event) :
  guarded s -> guarded (step URL s e).
Proof.
  intros Hg. destruct e as [f m| |err|err| |p o]; simpl.
  - destruct (listening s); [|exact Hg]. unfold on_file, guarded in *.
    handler_cases; simpl; rewrite ?List.filter_app; simpl; rewrite ?app_nil_r;
      exact Hg.
  - case_bool_decide; [|exact Hg]. unfold guarded in *.
    destruct (listening s) eqn:Hl.
    + rewrite (on_limit_listening _ Hl). simpl. rewrite !List.filter_app. simpl.
      rewrite !app_nil_r. exact Hg.
    + rewrite (on_limit_deaf _ Hl). simpl. rewrite !List.filter_app. simpl.
      rewrite !app_nil_r. exact Hg.
  - case_bool_decide; [|exact Hg]. unfold emit_error.
    destruct (listening s); [apply done_guarded, Hg|].
    unfold guarded in *. simpl. rewrite List.filter_app. simpl.
    rewrite app_nil_r. exact Hg.
  - unfold emit_error.
    destruct (listening s); [apply done_guarded, Hg|].
    unfold guarded in *. simpl. rewrite List.filter_app. simpl.
    rewrite app_nil_r. exact Hg.
  - destruct (listening s); [|exact Hg]. unfold on_finish.
    destruct (uploadResult s) as [p|]; [|exact Hg].
    destruct (settled s !! p) as [o|]; [|exact Hg].
    rewrite respond_settled_log. unfold guarded in *. simpl.
    rewrite List.filter_app.
    replace (List.filter releases_request [settled_response (accessPath s) o])
      with (@nil effect) by (destruct o; reflexivity).
    rewrite app_nil_r. exact Hg.
  - unfold on_settle.
    destruct (bool_decide (p < uploads s) && bool_decide (settled s !! p = None));
      [|exact Hg].
    unfold guarded in *.
    rewrite run_handlers_log.
    match goal with
    | |- context [isDone (run_handlers o ?w ?s0)] =>
        destruct (run_handlers_foldl o w s0) as (_ & _ & -> & _)
    end.
    rewrite respond_settled_repeat_isDone. simpl.
    rewrite List.filter_app, filter_repeat_none by (destruct o; reflexivity).
    rewrite app_nil_r. exact Hg.
Qed.

Lemma run_guarded (events : list event) (s : session) :
  guarded s -> guarded (run URL s events).
Proof.
  revert s. induction events as [|e events IH]; intros s Hs; [exact Hs|].
  apply IH, step_guarded, Hs.
Qed.

(** X1: whatever the events of a request, also error events that carry
    falsy values, the last block of [done] runs at most once: the request
    is unpiped, drained and the listeners removed either never or exactly
    once, together and in this order. *)
Theorem release_at_most_once (ep : jsval) (padId uuid : string)
    (ctor : parser_ctor) (s0 : session) (events : list event) :
  post_upload ep padId ctor uuid = HSession s0 ->
  List.filter releases_request (log (run URL s0 events)) = []
  \/ List.filter releases_request (log (run URL s0 events))
     = [EUnpipe; EDrain; ERemoveAllListeners].
Proof.
  intros Hpost.
  destruct (post_upload_session _ _ _ _ _ Hpost) as (x & m & b & st & -> & _).
  destruct (run_guarded events (new_session ep padId uuid
              [ENewUploader x m b st; ENewBusboy m; EPipe])) as [Hg|[_ Hg]];
    [left; reflexivity|left; exact Hg|right; exact Hg].
Qed.

End Guard.

Lemma release_at_most_once_witness :
  List.filter releases_request
    (log (run Url.http_resolve (opened s3_settings)
            [photo; EvError (JNum 0); EvFileError (JBool false); EvFinish])) = []
  \/ List.filter releases_request
       (log (run Url.http_resolve (opened s3_settings)
               [photo; EvError (JNum 0); EvFileError (JBool false); EvFinish]))
     = [EUnpipe; EDrain; ERemoveAllListeners].
Proof.
  apply (release_at_most_once Url.http_resolve s3_settings pad id CtorOk
           (opened s3_settings)).
  reflexivity.
Defined.

(** ** The statuses of the responses *)

Section Statuses.

Variable URL : Url.resolver.

Lemma settled_response_status (a : jsval) (o : settle) :
  status_201_or_500 (settled_response a o).
Proof. destruct o; simpl; auto. Qed.

Lemma done_statuses (err : jsval) (s : session) :
  Forall status_201_or_500 (log s) -> Forall status_201_or_500 (log (done err s).1).
Proof.
  intros Hs. unfold done. destruct (truthy err) eqn:Ht.
  - simpl. apply Forall_app. split; [exact Hs|]. repeat constructor.
  - destruct (isDone s); [exact Hs|].
    destruct err; simpl in *; try discriminate;
      repeat (apply Forall_app; split); try exact Hs;
      repeat (apply List.Forall_cons || apply List.Forall_nil); simpl; auto.
Qed.

Lemma step_statuses (s : session) (e : event) :
  Forall status_201_or_500 (log s) -> Forall status_201_or_500 (log (step URL s e)).
Proof.
  intros Hs.
  assert (Hemit : forall eff s', Forall status_201_or_500 (log s') ->
            status_201_or_500 eff -> Forall status_201_or_500 (log (emit eff s'))).
  { intros eff s' H1 H2. simpl. apply Forall_app. split; [exact H1|].
    repeat constructor. exact H2. }
  destruct e as [f m| |err|err| |p o]; simpl.
  - destruct (listening s); [|exact Hs]. unfold on_file.
    handler_cases; simpl; try (apply Forall_app; split; [exact Hs|]);
      repeat (apply List.Forall_cons || apply List.Forall_nil); simpl; auto.
  - case_bool_decide; [|exact Hs].
    destruct (listening s) eqn:Hl.
    + rewrite (on_limit_listening _ Hl). repeat apply Hemit; simpl; auto.
    + rewrite (on_limit_deaf _ Hl). apply Hemit; simpl; auto.
  - case_bool_decide; [|exact Hs]. unfold emit_error.
    destruct (listening s); [apply done_statuses, Hs|apply Hemit; simpl; auto].
  - unfold emit_error.
    destruct (listening s); [apply done_statuses, Hs|apply Hemit; simpl; auto].
  - destruct (listening s); [|exact Hs]. unfold on_finish.
    destruct (uploadResult s) as [p|]; [|exact Hs].
    destruct (settled s !! p) as [o|]; [|exact Hs].
    rewrite respond_settled_log. apply Hemit; [exact Hs|apply settled_response_status].
  - unfold on_settle.
    destruct (bool_decide (p < uploads s) && bool_decide (settled s !! p = None));
      [|exact Hs].
    rewrite run_handlers_log. simpl. apply Forall_app. split; [exact Hs|].
    apply Forall_forall. intros eff Hin. apply list_elem_of_In, in_map_iff in Hin.
    destruct Hin as (_ & <- & _). apply settled_response_status.
Qed.

Lemma run_statuses (events : list event) (s : session) :
  Forall status_201_or_500 (log s) ->
  Forall status_201_or_500 (log (run URL s events)).
Proof.
  revert s. induction events as [|e events IH]; intros s Hs; [exact Hs|].
  apply IH, step_statuses, Hs.
Qed.

(** X2: every response of a request has status 201 or 500, whatever the
    events and whatever the errors carry; in particular no response ever
    has the status 403 that the size-limit error is given. *)
Theorem responses_are_201_or_500 (ep : jsval) (padId uuid : string)
    (ctor : parser_ctor) (s0 : session) (events : list event)
    (status body : jsval) :
  post_upload ep padId ctor uuid = HSession s0 ->
  ERespond status body ∈ log (run URL s0 events) ->
  status = JNum 201 \/ status = JNum 500.
Proof.
  intros Hpost Hin.
  destruct (post_upload_session _ _ _ _ _ Hpost) as (x & m & b & st & -> & _).
  assert (H0 : Forall status_201_or_500 (log (new_session ep padId uuid
                 [ENewUploader x m b st; ENewBusboy m; EPipe])))
    by (simpl; repeat (apply List.Forall_cons || apply List.Forall_nil); exact I).
  pose proof (run_statuses events _ H0) as Hall.
  rewrite Forall_forall in Hall. exact (Hall _ Hin).
Qed.

End Statuses.

Lemma responses_are_201_or_500_witness :
  let events := [photo; EvLimit; EvFinish; EvSettle 0 (Fulfilled JUndefined)] in
  let url := JUrl "http://x/files/pad1/110ec58a-a0f2-4ac4-8393-c866d813b8d1.png" in
  ERespond (JNum 201) url
    ∈ log (run Url.http_resolve (opened (local_settings "http://x/files/")) events)
  /\ (JNum 201 = JNum 201 \/ JNum 201 = JNum 500).
Proof.
  assert (Hin : ERespond (JNum 201)
                  (JUrl "http://x/files/pad1/110ec58a-a0f2-4ac4-8393-c866d813b8d1.png")
                ∈ log (run Url.http_resolve (opened (local_settings "http://x/files/"))
                         [photo; EvLimit; EvFinish; EvSettle 0 (Fulfilled JUndefined)])).
  { vm_compute. do 6 right. left. }
  split; [exact Hin|].
  apply (responses_are_201_or_500 Url.http_resolve
           (local_settings "http://x/files/") pad id CtorOk
           (opened (local_settings "http://x/files/"))
           [photo; EvLimit; EvFinish; EvSettle 0 (Fulfilled JUndefined)]
           (JNum 201)
           (JUrl "http://x/files/pad1/110ec58a-a0f2-4ac4-8393-c866d813b8d1.png"));
    [reflexivity|exact Hin].
Defined.

(** ** When partial data is deleted *)

Section Deletes.

Variable URL : Url.resolver.

Lemma done_deletes (err : jsval) (s : session) :
  List.filter is_delete_partials (log (done err s).1)
  = List.filter is_delete_partials (log s).
Proof.
  unfold done. handler_cases; simpl; rewrite ?List.filter_app; simpl;
    rewrite ?app_nil_r; reflexivity.
Qed.

Lemma emit_error_deletes (err : jsval) (s : session) :
  List.filter is_delete_partials (log (emit_error err s).1)
  = List.filter is_delete_partials (log s).
Proof.
  unfold emit_error. destruct (listening s); [apply done_deletes|].
  simpl. rewrite List.filter_app. apply app_nil_r.
Qed.

Lemma step_deletes (s : session) (e : event) :
  length (List.filter is_delete_partials (log (step URL s e)))
  <= length (List.filter is_delete_partials (log s)) + (if is_limit e then 1 else 0).
Proof.
  destruct e as [f m| |err|err| |p o]; simpl.
  - destruct (listening s); [|lia]. unfold on_file.
    handler_cases; simpl; rewrite ?List.filter_app; simpl; rewrite ?app_nil_r; lia.
  - case_bool_decide; [|lia].
    destruct (listening s) eqn:Hl.
    + rewrite (on_limit_listening _ Hl). simpl. rewrite !List.filter_app, !length_app.
      simpl. lia.
    + rewrite (on_limit_deaf _ Hl). simpl. rewrite List.filter_app, app_nil_r. lia.
  - case_bool_decide; [|lia]. rewrite emit_error_deletes. lia.
  - rewrite emit_error_deletes. lia.
  - destruct (listening s); [|lia]. unfold on_finish.
    destruct (uploadResult s) as [p|]; [|lia].
    destruct (settled s !! p) as [o|]; [|simpl; lia].
    rewrite respond_settled_log. simpl. rewrite List.filter_app.
    replace (List.filter is_delete_partials [settled_response (accessPath s) o])
      with (@nil effect) by (destruct o; reflexivity).
    rewrite app_nil_r. lia.
  - unfold on_settle.
    destruct (bool_decide (p < uploads s) && bool_decide (settled s !! p = None));
      [|lia].
    rewrite run_handlers_log. simpl.
    rewrite List.filter_app, filter_repeat_none by (destruct o; reflexivity).
    rewrite app_nil_r. lia.
Qed.

(** X3: partial data is deleted for size-limit events only: over any run
    of a request the uploader is asked to delete partials at most once per
    ['limit'] event, and never because a stream failed, the parser failed
    or the storage call was rejected. *)
Theorem delete_partials_only_on_limit (ep : jsval) (padId uuid : string)
    (ctor : parser_ctor) (s0 : session) (events : list event) :
  post_upload ep padId ctor uuid = HSession s0 ->
  length (List.filter is_delete_partials (log (run URL s0 events)))
  <= length (List.filter is_limit events).
Proof.
  intros Hpost.
  destruct (post_upload_session _ _ _ _ _ Hpost) as (x & m & b & st & -> & _).
  assert (Hrun : forall es s,
            length (List.filter is_delete_partials (log (run URL s es)))
            <= length (List.filter is_delete_partials (log s))
               + length (List.filter is_limit es)).
  { induction es as [|e es IH]; intros s; [simpl; lia|].
    change (run URL s (e :: es)) with (run URL (step URL s e) es).
    pose proof (IH (step URL s e)). pose proof (step_deletes s e).
    simpl. destruct (is_limit e); simpl; lia. }
  apply (Hrun events).
Qed.

End Deletes.

Lemma delete_partials_only_on_limit_witness :
  length (List.filter is_delete_partials
            (log (run Url.http_resolve (opened s3_settings)
                    [photo; EvFileError malformed; EvLimit; EvError malformed;
                     EvFinish; EvSettle 0 (Rejected access_denied)])))
  <= length (List.filter is_limit
               [photo; EvFileError malformed; EvLimit; EvError malformed;
                EvFinish; EvSettle 0 (Rejected access_denied)]).
Proof.
  apply (delete_partials_only_on_limit Url.http_resolve s3_settings pad id CtorOk
           (opened s3_settings)).
  reflexivity.
Defined.

(** ** One response per request *)

Lemma at_most_one_response_witness :
  length (responses
            (run Url.http_resolve (opened s3_settings)
               [photo; EvLimit; EvError malformed; second_photo; EvFinish;
                EvSettle 0 (Rejected access_denied); EvSettle 1 (Fulfilled stored)]))
  <= 1.
Proof.
  apply (at_most_one_response Url.http_resolve s3_settings pad id
           (log (opened s3_settings))
           [photo; EvLimit; EvError malformed; second_photo; EvFinish;
            EvSettle 0 (Rejected access_denied); EvSettle 1 (Fulfilled stored)]).
  - reflexivity.
  - reflexivity.
  - vm_compute. lia.
Defined.

(** ** How the route handler ends *)

Lemma prop_truthy_receiver (v : jsval) (k : string) :
  truthy (prop v k) = true -> get_prop v k = inr (prop v k).
Proof. unfold prop. destruct (get_prop v k); [discriminate|reflexivity]. Qed.

Lemma get_prop_non_nullish (v : jsval) (k : string) :
  non_nullish v = true -> get_prop v k = inr (prop v k).
Proof. destruct v; simpl; intros H; try discriminate; reflexivity. Qed.

Lemma get_prop_receiver (v : jsval) (k j : string) (x : jsval) :
  get_prop v k = inr x -> get_prop v j = inr (prop v j).
Proof. destruct v; simpl; intros H; try discriminate; reflexivity. Qed.

(** X5: the route handler opens a session exactly when [storage] is truthy
    and the parser could be built. When the parser constructor throws, the
    error is logged and handed to [next], once. When [storage] is falsy but
    not [undefined] or [null], the uploader is built and the handler
    returns: no parser, no response, no [next]. *)
Theorem route_handler_outcomes (ep : jsval) (padId uuid : string) (ctor : parser_ctor) :
  ((exists s, post_upload ep padId ctor uuid = HSession s)
   <-> truthy (prop ep "storage") = true /\ ctor = CtorOk)
  /\ (forall error,
        ctor = CtorThrows error -> truthy (prop ep "storage") = true ->
        post_upload ep padId ctor uuid
        = HNext [ENewUploader (prop ep "fileTypes") (prop ep "maxFileSize")
                   (prop (prop ep "storage") "baseFolder") (prop ep "storage");
                 ELogError "EP_IMAGE_UPLOAD ERROR" error; ENext error])
  /\ (non_nullish (prop ep "storage") = true -> truthy (prop ep "storage") = false ->
        post_upload ep padId ctor uuid
        = HIdle [ENewUploader (prop ep "fileTypes") (prop ep "maxFileSize")
                   (prop (prop ep "storage") "baseFolder") (prop ep "storage")]).
Proof.
  assert (Hread : forall st, get_prop ep "storage" = inr st -> non_nullish st = true ->
            post_upload ep padId ctor uuid
            = if truthy st then
                match ctor with
                | CtorThrows error =>
                    HNext [ENewUploader (prop ep "fileTypes") (prop ep "maxFileSize")
                             (prop st "baseFolder") st;
                           ELogError "EP_IMAGE_UPLOAD ERROR" error; ENext error]
                | CtorOk =>
                    HSession (new_session ep padId uuid
                      [ENewUploader (prop ep "fileTypes") (prop ep "maxFileSize")
                         (prop st "baseFolder") st;
                       ENewBusboy (prop ep "maxFileSize"); EPipe])
                end
              else HIdle [ENewUploader (prop ep "fileTypes") (prop ep "maxFileSize")
                            (prop st "baseFolder") st]).
  { intros st Hst Hnn. unfold post_upload.
    rewrite (get_prop_receiver _ _ "fileTypes" _ Hst),
            (get_prop_receiver _ _ "maxFileSize" _ Hst), Hst,
            (get_prop_non_nullish st "baseFolder" Hnn).
    destruct (truthy st); [destruct ctor|]; reflexivity. }
  assert (Hnn : forall v, truthy v = true -> non_nullish v = true)
    by (intros v; destruct v; simpl; auto).
  assert (Hst : non_nullish (prop ep "storage") = true ->
            get_prop ep "storage" = inr (prop ep "storage")).
  { unfold prop. destruct (get_prop ep "storage"); [discriminate|reflexivity]. }
  split; [split|split].
  - intros [s Hs]. destruct (post_upload_session _ _ _ _ _ Hs) as (x & m & b & st & _ & Ht).
    split; [exact Ht|].
    rewrite (Hread _ (Hst (Hnn _ Ht)) (Hnn _ Ht)), Ht in Hs.
    destruct ctor; [reflexivity|discriminate].
  - intros [Ht ->]. rewrite (Hread _ (Hst (Hnn _ Ht)) (Hnn _ Ht)), Ht. eauto.
  - intros error -> Ht. rewrite (Hread _ (Hst (Hnn _ Ht)) (Hnn _ Ht)), Ht. reflexivity.
  - intros Hn Hf. rewrite (Hread _ (Hst Hn) Hn), Hf. reflexivity.
Qed.

(** ** Paths below a directory *)

Section PathsBelow.

Import Path.

Implicit Types (l seg : list ascii) (segs : list (list ascii)).

Lemma string_of_app l1 l2 :
  String.string_of_list_ascii (l1 ++ l2)
  = String.string_of_list_ascii l1 +:+ String.string_of_list_ascii l2.
Proof. induction l1 as [|c l1 IH]; simpl; [reflexivity|]. rewrite IH. reflexivity. Qed.

Lemma split_slash_cons_seg l : exists seg segs, split_slash l = seg :: segs.
Proof.
  destruct l as [|c l]; simpl; [eauto|].
  destruct (is_slash c); [eauto|]. destruct (split_slash l); eauto.
Qed.

(** Splitting distributes over a slash. *)
Lemma split_slash_at l1 l2 :
  split_slash (l1 ++ slash :: l2) = split_slash l1 ++ split_slash l2.
Proof.
  induction l1 as [|c l1 IH]; simpl; [reflexivity|].
  rewrite IH. destruct (is_slash c); [reflexivity|].
  destruct (split_slash_cons_seg l1) as (seg & segs & ->). reflexivity.
Qed.

(** Normalizing segment lists can be done in two parts. *)
Lemma normalize_segs_app (a : bool) stack segs1 segs2 :
  normalize_segs a stack (segs1 ++ segs2)
  = normalize_segs a (rev (normalize_segs a stack segs1)) segs2.
Proof.
  revert stack. induction segs1 as [|seg segs1 IH]; intros stack; simpl.
  - rewrite rev_involutive. reflexivity.
  - handler_cases; apply IH.
Qed.

Lemma normalize_segs_plain (a : bool) stack seg :
  plain seg -> normalize_segs a stack [seg] = rev stack ++ [seg].
Proof.
  intros (_ & H0 & H1 & H2). simpl.
  destruct seg as [|c seg]; [contradiction|]. simpl.
  destruct (seg_eqb_spec (c :: seg) [dot]); [contradiction|].
  destruct (seg_eqb_spec (c :: seg) [dot; dot]); [contradiction|].
  reflexivity.
Qed.

Lemma join_slash_snoc segs seg :
  segs <> [] -> join_slash (segs ++ [seg]) = join_slash segs ++ slash :: seg.
Proof.
  induction segs as [|s1 segs IH]; intros Hne; [contradiction|].
  destruct segs as [|s2 segs]; [reflexivity|].
  change (join_slash ((s1 :: s2 :: segs) ++ [seg]))
    with (s1 ++ slash :: join_slash ((s2 :: segs) ++ [seg])).
  rewrite IH by discriminate.
  change (join_slash (s1 :: s2 :: segs)) with (s1 ++ slash :: join_slash (s2 :: segs)).
  rewrite <- app_assoc. reflexivity.
Qed.

Lemma join_slash_nonempty segs seg :
  seg <> [] -> join_slash (segs ++ [seg]) <> [].
Proof.
  intros Hseg. destruct segs as [|s1 segs]; [exact Hseg|].
  rewrite join_slash_snoc by discriminate.
  intros H. apply app_eq_nil in H as [_ H]. discriminate.
Qed.

Lemma last_is_slash_suffix l1 l2 :
  l2 <> [] -> no_slash l2 -> last_is_slash (l1 ++ l2) = false.
Proof.
  intros Hne Hfree. unfold last_is_slash. rewrite rev_app_distr.
  destruct (rev l2) as [|d rest] eqn:Hr.
  - apply (f_equal (@length ascii)) in Hr. rewrite length_rev in Hr.
    destruct l2; [contradiction|discriminate].
  - simpl. unfold no_slash in Hfree. rewrite forallb_forall in Hfree.
    assert (Hd : In d l2) by (apply in_rev; rewrite Hr; left; reflexivity).
    apply Hfree, negb_true_iff in Hd. exact Hd.
Qed.

(** A plain name appended to a path that ends in a plain segment goes
    through normalization unchanged. *)
Lemma normalize_below l segs lp ln :
  split_slash l = segs ++ [lp] -> last_is_slash l = false ->
  plain lp -> plain ln ->
  normalize (String.string_of_list_ascii (l ++ slash :: ln))
  = normalize (String.string_of_list_ascii l) +:+ "/" +:+ String.string_of_list_ascii ln.
Proof.
  intros Hsplit Hlast Hp Hn. unfold normalize.
  rewrite !String.list_ascii_of_string_of_list_ascii.
  destruct l as [|c l].
  { simpl in Hsplit. destruct segs as [|? [|? ?]]; try discriminate.
    injection Hsplit as <-. destruct Hp as (_ & H & _). contradiction. }
  change ((c :: l) ++ slash :: ln) with (c :: l ++ slash :: ln). cbv iota beta zeta.
  change (c :: l ++ slash :: ln) with ((c :: l) ++ slash :: ln).
  assert (Hn' := Hn). destruct Hn' as (Hfree & Hne & _).
  replace ((c :: l) ++ slash :: ln) with (((c :: l) ++ [slash]) ++ ln)
    by (rewrite <- app_assoc; reflexivity).
  rewrite (last_is_slash_suffix _ _ Hne Hfree), Hlast.
  replace (((c :: l) ++ [slash]) ++ ln) with ((c :: l) ++ slash :: ln)
    by (rewrite <- app_assoc; reflexivity).
  rewrite split_slash_at, Hsplit, (split_slash_plain ln Hfree).
  rewrite <- !app_assoc. simpl app.
  rewrite (normalize_segs_app _ [] segs [lp; ln]),
          (normalize_segs_app _ [] segs [lp]).
  set (R := rev (normalize_segs (negb (is_slash c)) [] segs)).
  change [lp; ln] with ([lp] ++ [ln]).
  rewrite (normalize_segs_app _ R [lp] [ln]), (normalize_segs_plain _ R lp Hp).
  rewrite (normalize_segs_plain _ _ ln Hn), rev_involutive.
  assert (Hlp : lp <> []) by (destruct Hp as (_ & H & _); exact H).
  rewrite join_slash_snoc by (intros H; apply app_eq_nil in H as [_ H]; discriminate).
  pose proof (join_slash_nonempty (rev R) lp Hlp) as Hbody.
  destruct (join_slash (rev R ++ [lp])) as [|b body]; [contradiction|].
  simpl app. cbv iota.
  destruct (is_slash c); simpl;
    rewrite ?string_of_app; simpl; reflexivity.
Qed.

(** [path.join] of a folder with [<pad>/<name>] is the join of the folder
    with the pad, followed by ['/'] and the name. *)
Lemma join_below (folder padId name : string) :
  plain_segment padId = true -> plain_segment name = true ->
  join folder (join padId name) = join folder padId +:+ "/" +:+ name.
Proof.
  intros Hpad Hname. rewrite (join_plain _ _ Hpad Hname).
  assert (Hplain : forall z, plain_segment z = true ->
            plain (String.list_ascii_of_string z) /\ z <> "").
  { intros z Hz. unfold plain_segment, slash_free in Hz.
    repeat (apply andb_prop in Hz as [Hz ?]).
    repeat match goal with
    | H : negb (String.eqb _ _) = true |- _ =>
        apply negb_true_iff, String.eqb_neq in H
    end.
    split; [|assumption]. split; [exact Hz|].
    repeat split; intros Heq;
      apply (f_equal String.string_of_list_ascii) in Heq;
      rewrite String.string_of_list_ascii_of_string in Heq; contradiction. }
  destruct (Hplain _ Hpad) as [Hp Hpne]. destruct (Hplain _ Hname) as [Hn Hnne].
  set (lp := String.list_ascii_of_string padId) in *.
  set (ln := String.list_ascii_of_string name) in *.
  assert (Hfree : no_slash lp) by apply Hp.
  assert (Hlp : lp <> []) by apply Hp.
  unfold join. destruct padId as [|cp padId']; [contradiction|].
  set (pad := String cp padId') in *.
  destruct folder as [|cf folder'].
  - (* no folder: [join "" x] normalizes [x] *)
    change (match pad +:+ "/" +:+ name with "" => "." | _ => normalize (pad +:+ "/" +:+ name) end)
      with (normalize (pad +:+ "/" +:+ name)).
    rewrite <- (String.string_of_list_ascii_of_string (pad +:+ "/" +:+ name)).
    rewrite !list_of_append. fold lp ln.
    change (String.list_ascii_of_string "/" ++ ln) with (slash :: ln).
    rewrite (normalize_below lp [] lp ln); [| |apply last_is_slash_suffix with (l1 := [])| |];
      try assumption; [|apply split_slash_plain, Hfree].
    unfold lp, ln. rewrite !String.string_of_list_ascii_of_string. reflexivity.
  - set (f := String cf folder') in *.
    change (match pad +:+ "/" +:+ name with
            | "" => normalize f
            | _ => normalize (f +:+ "/" +:+ pad +:+ "/" +:+ name)
            end) with (normalize (f +:+ "/" +:+ pad +:+ "/" +:+ name)).
    rewrite <- (String.string_of_list_ascii_of_string (f +:+ "/" +:+ pad +:+ "/" +:+ name)).
    rewrite <- (String.string_of_list_ascii_of_string (f +:+ "/" +:+ pad)).
    rewrite !list_of_append. fold lp ln.
    set (lf := String.list_ascii_of_string f).
    change (lf ++ String.list_ascii_of_string "/" ++ lp
               ++ String.list_ascii_of_string "/" ++ ln)
      with (lf ++ (slash :: lp) ++ slash :: ln).
    change (lf ++ String.list_ascii_of_string "/" ++ lp) with (lf ++ slash :: lp).
    rewrite (app_assoc lf (slash :: lp) (slash :: ln)).
    rewrite (normalize_below (lf ++ slash :: lp) (split_slash lf) lp ln); try assumption.
    + unfold ln. rewrite String.string_of_list_ascii_of_string. reflexivity.
    + rewrite split_slash_at, (split_slash_plain lp Hfree). reflexivity.
    + replace (lf ++ slash :: lp) with ((lf ++ [slash]) ++ lp)
        by (rewrite <- app_assoc; reflexivity).
      apply last_is_slash_suffix; assumption.
Qed.

End PathsBelow.

(** ** The [padRemove] hook *)

Lemma is_local_storage (ep : jsval) :
  is_local ep = true ->
  exists props storage,
    ep = JObj props /\ prop ep "storage" = JObj storage
    /\ storage !! "type" = Some (JStr "local").
Proof.
  unfold is_local. intros H. apply andb_prop in H as [Ht Hl].
  destruct ep as [| | | | | | |props]; try discriminate.
  exists props. destruct (prop (JObj props) "storage") as [| | | | | | |storage] eqn:Hst;
    try discriminate.
  exists storage. split; [reflexivity|]. split; [reflexivity|].
  unfold prop in Hl. simpl in Hl.
  destruct (storage !! "type") as [[]|]; simpl in Hl; try discriminate.
  apply String.eqb_eq in Hl. subst. reflexivity.
Qed.

Lemma pad_remove_local (ep : jsval) (baseFolder pad : string) :
  is_local ep = true ->
  prop (prop ep "storage") "baseFolder" = JStr baseFolder ->
  padRemove ep (JStr pad) = RmDir (Path.join baseFolder pad).
Proof.
  intros Hlocal Hbf.
  destruct (is_local_storage _ Hlocal) as (props & storage & -> & Hst & Htype).
  unfold padRemove. simpl. unfold prop in Hst, Hbf. simpl in Hst, Hbf.
  rewrite Hst in *. simpl in *. rewrite Htype, Hbf. reflexivity.
Qed.

(** X6: the hook removes a directory exactly when the storage is local
    and both the base folder and the pad id are strings, and the directory
    is then [path.join(baseFolder, padID)]; for every other storage it
    never touches the file system. *)
Theorem pad_remove_removes_iff (ep padID : jsval) (dir : string) :
  padRemove ep padID = RmDir dir
  <-> is_local ep = true
      /\ exists baseFolder pad,
           prop (prop ep "storage") "baseFolder" = JStr baseFolder
           /\ padID = JStr pad
           /\ dir = Path.join baseFolder pad.
Proof.
  split.
  - unfold padRemove, is_local. intros H.
    destruct ep as [| | | | | | |props]; simpl in H; try discriminate.
    unfold prop. simpl.
    destruct (default JUndefined (props !! "storage")) as [| | | | | | |storage];
      simpl in H; try discriminate.
    simpl.
    destruct (is_str (default JUndefined (storage !! "type")) "local");
      [|discriminate].
    split; [reflexivity|].
    destruct (default JUndefined (storage !! "baseFolder")) as [| | | |bf| | |];
      simpl in H; try discriminate.
    destruct padID as [| | | |pad| | |]; simpl in H; try discriminate.
    injection H as <-. exists bf, pad. auto.
  - intros (Hlocal & bf & pad & Hbf & -> & ->).
    apply pad_remove_local; assumption.
Qed.

(** X7: with no plugin settings, no [storage], or a storage of another
    type, the hook resolves without touching the file system and without
    throwing, where the upload handler throws on a missing [storage]; only
    a [null] in the place of an object makes it reject. *)
Theorem pad_remove_tolerates_missing_settings (ep padID : jsval) :
  ep <> JNull -> prop ep "storage" <> JNull -> is_local ep = false ->
  padRemove ep padID = RmNothing.
Proof.
  unfold padRemove, is_local, prop. intros Hep Hst Hlocal.
  destruct ep as [| | | | | | |props]; try contradiction; simpl in *;
    try reflexivity.
  destruct (default JUndefined (props !! "storage")) as [| | | | | | |storage];
    try contradiction; simpl in *; try reflexivity.
  rewrite Hlocal. reflexivity.
Qed.

Lemma pad_remove_tolerates_missing_settings_witness :
  padRemove readme_settings (JStr pad) = RmNothing
  /\ padRemove JUndefined (JStr pad) = RmNothing.
Proof.
  split.
  - apply (pad_remove_tolerates_missing_settings readme_settings (JStr pad));
      [discriminate|discriminate|reflexivity].
  - apply (pad_remove_tolerates_missing_settings JUndefined (JStr pad));
      [discriminate|discriminate|reflexivity].
Defined.

(** X8: under local storage with a string base folder, every upload of a
    pad with a plain id is stored directly inside the directory that
    removing the pad deletes: the key is that directory, a slash, the id
    of the request and the extension. *)
Theorem local_uploads_in_removed_directory (ep : jsval)
    (padId uuid filename key baseFolder : string) :
  is_local ep = true ->
  prop (prop ep "storage") "baseFolder" = JStr baseFolder ->
  plain_segment padId = true -> plain_id uuid = true ->
  storage_key ep padId uuid filename key ->
  padRemove ep (JStr padId) = RmDir (Path.join baseFolder padId)
  /\ key = Path.join baseFolder padId +:+ "/" +:+ uuid +:+ Path.extname filename.
Proof.
  intros Hlocal Hbf Hpad Hid Hkey. split.
  - apply pad_remove_local; assumption.
  - unfold storage_key in Hkey. rewrite Hlocal in Hkey.
    destruct Hkey as (bf & Hbf' & ->). rewrite Hbf in Hbf'. injection Hbf' as <-.
    apply join_below; [exact Hpad|].
    apply plain_id_name; [exact Hid|apply extname_slash_free].
Qed.

Lemma local_uploads_in_removed_directory_witness :
  padRemove (local_settings "http://x/files/") (JStr pad) = RmDir "/tmp/up/pad1"
  /\ "/tmp/up/pad1/110ec58a-a0f2-4ac4-8393-c866d813b8d1.png"
     = Path.join "/tmp/up" pad +:+ "/" +:+ id +:+ Path.extname "photo.png".
Proof.
  apply (local_uploads_in_removed_directory (local_settings "http://x/files/")
           pad id "photo.png"
           "/tmp/up/pad1/110ec58a-a0f2-4ac4-8393-c866d813b8d1.png" "/tmp/up").
  - reflexivity.
  - reflexivity.
  - reflexivity.
  - reflexivity.
  - vm_compute. exists "/tmp/up". split; reflexivity.
Defined.

(** ** More on [clientVars] *)

Lemma copy_key_keeps (acc : gmap string jsval) (l : list (string * jsval)) (k : string) :
  is_Some (acc !! k) -> is_Some (foldl copy_key acc l !! k).
Proof.
  revert acc. induction l as [|[k' v] l IH]; intros acc Hk; simpl; [exact Hk|].
  apply IH. unfold copy_key. simpl.
  destruct (negb (String.eqb k' "storage")); [|exact Hk].
  destruct (String.eqb k' "__proto__"); [exact Hk|].
  destruct (decide (k' = k)) as [->|Hne].
  - rewrite lookup_insert_eq. eauto.
  - rewrite lookup_insert_ne by exact Hne. exact Hk.
Qed.

(** X9: for every value of [settings.ep_image_upload], also a missing,
    falsy, array or string one, the hook calls back with the client
    variables (its warning branch is never taken); the variables never hold
    a [storage] key and always hold the table under [mimeTypes] and some
    [storageType]; the settings are replaced by an empty object exactly when
    they are falsy. *)
Theorem client_vars_always_calls_back (mimetypes ep : jsval) :
  (clientVars mimetypes ep).1 = (if truthy ep then ep else JObj ∅)
  /\ exists vars,
       (clientVars mimetypes ep).2
       = CbVars (JObj {[ "ep_image_upload" := JObj vars ]})
       /\ vars !! "storage" = None
       /\ vars !! "mimeTypes" = Some mimetypes
       /\ is_Some (vars !! "storageType").
Proof.
  unfold clientVars. simpl. split; [destruct (truthy ep); reflexivity|].
  eexists. split; [reflexivity|].
  set (ep' := if negb (truthy ep) then JObj ∅ else ep).
  split; [|split; [apply lookup_insert_eq|]].
  - rewrite lookup_insert_ne by discriminate. unfold plugin_settings.
    destruct (_ && _);
      rewrite ?(lookup_insert_ne _ "storageType" "storage") by discriminate;
      rewrite copy_key_storage; reflexivity.
  - rewrite lookup_insert_ne by discriminate. unfold plugin_settings.
    destruct (_ && _); [rewrite lookup_insert_eq; eauto|].
    apply copy_key_keeps. rewrite lookup_singleton_eq. eauto.
Qed.

Lemma client_vars_hide_storage_witness :
  exposed (JObj ∅)
    (JObj (<["maxFileSize" := JNum 1000]> (<["storage" := s3_storage]> ∅)))
  = exposed (JObj ∅)
      (JObj (<["maxFileSize" := JNum 1000]>
            (<["storage" := JObj (<["type" := JStr "s3"]>
                                 (<["secretAccessKey" := JStr "OTHER"]> ∅))]> ∅))).
Proof.
  apply (client_vars_hide_storage (JObj ∅)
           (<["maxFileSize" := JNum 1000]> (<["storage" := s3_storage]> ∅))
           (<["maxFileSize" := JNum 1000]>
            (<["storage" := JObj (<["type" := JStr "s3"]>
                                 (<["secretAccessKey" := JStr "OTHER"]> ∅))]> ∅)));
    vm_compute; reflexivity.
Defined.

Lemma storage_key_plain_witness :
  storage_key s3_settings pad id "../../etc/passwd.png"
    (pad +:+ "/" +:+ id +:+ Path.extname "../../etc/passwd.png").
Proof.
  apply (storage_key_plain s3_settings pad id "../../etc/passwd.png"); reflexivity.
Defined.

(** ** Local storage that cannot be used *)

Section Unusable.

Variable URL : Url.resolver.

Lemma step_uploads_from_files (s : session) (e : event) :
  not_file e = true ->
  List.filter is_upload (log (step URL s e)) = List.filter is_upload (log s).
Proof.
  intros Hnf. destruct (step_log URL s e) as (added & -> & Hadded).
  rewrite List.filter_app.
  replace (List.filter is_upload added) with (@nil effect); [apply app_nil_r|].
  induction Hadded as [|eff added Heff _ IH]; [reflexivity|].
  simpl. rewrite <- IH.
  destruct eff; try reflexivity. simpl in Heff.
  destruct Heff as (name & -> & _). discriminate.
Qed.

(** With unusable local settings the ['file'] listener throws on every
    part, before it starts an upload. *)
Lemma on_file_unusable (f m : jsval) (s : session) :
  local_unusable URL (ep s) -> idle s ->
  idle (on_file URL f m s)
  /\ List.filter is_upload (log (on_file URL f m s)) = List.filter is_upload (log s)
  /\ responses (on_file URL f m s) = responses s.
Proof.
  intros (Hlocal & Hbad) Hidle. unfold is_local in Hlocal.
  assert (Hthrow : forall e s',
            uploadResult s' = uploadResult s -> uploads s' = uploads s ->
            log s' = log s ->
            idle (emit (EThrow e) s')
            /\ List.filter is_upload (log (emit (EThrow e) s'))
               = List.filter is_upload (log s)
            /\ responses (emit (EThrow e) s') = responses s).
  { intros e s' Hr Hu Hl. unfold idle, responses in *. simpl.
    rewrite Hr, Hu, Hl, !List.filter_app. simpl. rewrite !app_nil_r. tauto. }
  unfold on_file. destruct (as_string f) as [name|]; [|apply Hthrow; reflexivity].
  rewrite Hlocal.
  destruct (as_string (prop (prop (ep s) "storage") "baseURL")) as [base|] eqn:Hbase;
    [|apply Hthrow; reflexivity].
  destruct (URL _ base) as [href|] eqn:Hurl; [|apply Hthrow; reflexivity].
  destruct (as_string (prop (prop (ep s) "storage") "baseFolder")) as [folder|] eqn:Hf;
    [|apply Hthrow; reflexivity].
  exfalso. destruct Hbad as [H|[H|(base' & Hb & Hnone)]]; try discriminate.
  rewrite Hb in Hbase. injection Hbase as <-. rewrite Hnone in Hurl. discriminate.
Qed.

Lemma step_unusable (s : session) (e : event) :
  local_unusable URL (ep s) -> idle s ->
  idle (step URL s e)
  /\ List.filter is_upload (log (step URL s e)) = List.filter is_upload (log s)
  /\ (error_is_object e = true -> responses (step URL s e) = responses s).
Proof.
  intros Hbad Hidle. destruct (not_file e) eqn:Hnf.
  - split; [apply step_idle; assumption|].
    split; [apply step_uploads_from_files, Hnf|].
    intros Hobj. apply step_idle_responses; assumption.
  - destruct e as [f m| | | | |]; try discriminate. simpl.
    destruct (listening s); [|auto].
    destruct (on_file_unusable f m s Hbad Hidle) as (H1 & H2 & H3). auto.
Qed.

(** X10: when the storage is local but [baseURL] or [baseFolder] is not a
    string, or [url.URL] refuses the base, no upload is ever started,
    whatever the parts of the body, and a request whose errors are error
    objects is never answered. *)
Theorem unusable_local_storage_never_uploads (ep : jsval) (padId uuid : string)
    (s0 : session) (events : list event) :
  post_upload ep padId CtorOk uuid = HSession s0 ->
  local_unusable URL ep ->
  List.filter is_upload (log (run URL s0 events)) = []
  /\ (forallb error_is_object events = true -> responses (run URL s0 events) = []).
Proof.
  intros Hpost Hbad.
  destruct (post_upload_session _ _ _ _ _ Hpost) as (x & m & b & st & -> & _).
  set (s0 := new_session ep padId uuid [ENewUploader x m b st; ENewBusboy m; EPipe]).
  assert (Hrun : forall es s,
            Upload.ep s = ep -> idle s ->
            List.filter is_upload (log (run URL s es)) = List.filter is_upload (log s)
            /\ (forallb error_is_object es = true ->
                responses (run URL s es) = responses s)).
  { induction es as [|e es IH]; intros s Hep Hidle; [split; reflexivity|].
    change (run URL s (e :: es)) with (run URL (step URL s e) es).
    rewrite <- Hep in Hbad.
    destruct (step_unusable s e Hbad Hidle) as (Hidle' & Hup & Hresp).
    destruct (step_constants URL s e) as (Hep' & _).
    destruct (IH (step URL s e)) as [IH1 IH2]; [congruence|exact Hidle'|].
    split; [congruence|].
    intros Hobj. simpl in Hobj. apply andb_prop in Hobj as [He Hes].
    rewrite (IH2 Hes). apply Hresp, He. }
  destruct (Hrun events s0 eq_refl (conj eq_refl eq_refl)) as [H1 H2].
  split; [exact H1|exact H2].
Qed.

End Unusable.

Lemma unusable_local_storage_never_uploads_witness :
  let ep := JObj (<["storage" := JObj (<["type" := JStr "local"]>
                                      (<["baseFolder" := JStr "/tmp/up"]> ∅))]> ∅) in
  let events := [photo; second_photo; EvFinish] in
  List.filter is_upload (log (run Url.http_resolve (opened ep) events)) = []
  /\ (forallb error_is_object events = true ->
      responses (run Url.http_resolve (opened ep) events) = []).
Proof.
  apply (unusable_local_storage_never_uploads Url.http_resolve
           (JObj (<["storage" := JObj (<["type" := JStr "local"]>
                                      (<["baseFolder" := JStr "/tmp/up"]> ∅))]> ∅))
           pad id).
  - reflexivity.
  - split; [reflexivity|]. left. reflexivity.
Defined.

(** ** Whole requests *)

Section Requests.

Variable URL : Url.resolver.

(** X11: under a storage that is not local, a body with one file part
    within the size limit starts one upload under the key of its name and
    is answered once: 201 with what the back end resolved with, or 500 with
    the rejection. The handler itself never looks at the extension or at
    [fileTypes]. *)
Theorem bucket_upload_answered (ep : jsval) (padId uuid : string) (s0 : session)
    (filename mimetype : string) (size limit : Z) (o : settle) :
  post_upload ep padId CtorOk uuid = HSession s0 ->
  is_local ep = false ->
  (size <= limit)%Z ->
  log (run URL s0 (multipart_events (JNum limit) [(filename, mimetype, size)]
                   ++ [EvSettle 0 o]))
  = log s0 ++
    [EUpload 0 (JStr mimetype) (Path.join padId (uuid +:+ Path.extname filename));
     match o with
     | Fulfilled data => ERespond (JNum 201) data
     | Rejected err => ERespond (JNum 500) err
     end].
Proof.
  intros Hpost Hlocal Hsize.
  destruct (post_upload_session _ _ _ _ _ Hpost) as (x & m & b & st & -> & _).
  unfold multipart_events, part_events. simpl.
  rewrite (proj2 (Z.ltb_ge limit size) Hsize), andb_false_r. simpl.
  unfold on_file. simpl. unfold is_local in Hlocal. rewrite Hlocal. simpl.
  destruct o; reflexivity.
Qed.

(** X12: under local storage with string settings, the answer to a
    successful upload is the URL object built from the saved name and the
    [baseURL] setting; what the storage call resolved with is dropped. *)
Theorem local_upload_answered_with_url (ep : jsval) (padId uuid : string)
    (s0 : session) (filename baseURL baseFolder href : string)
    (mimetype data : jsval) :
  post_upload ep padId CtorOk uuid = HSession s0 ->
  is_local ep = true ->
  prop (prop ep "storage") "baseURL" = JStr baseURL ->
  prop (prop ep "storage") "baseFolder" = JStr baseFolder ->
  URL (Path.join padId (uuid +:+ Path.extname filename)) baseURL = Some href ->
  log (run URL s0 [EvFile (JStr filename) mimetype; EvFinish;
                   EvSettle 0 (Fulfilled data)])
  = log s0 ++
    [EUpload 0 mimetype
       (Path.join baseFolder (Path.join padId (uuid +:+ Path.extname filename)));
     ERespond (JNum 201) (JUrl href)].
Proof.
  intros Hpost Hlocal Hbase Hfolder Hurl.
  destruct (post_upload_session _ _ _ _ _ Hpost) as (x & m & b & st & -> & _).
  simpl. unfold on_file. simpl. unfold is_local in Hlocal.
  rewrite Hlocal, Hbase, Hfolder. simpl. rewrite Hurl. reflexivity.
Qed.

(** ** Several file parts *)

Lemma done_pending (err : jsval) (s : session) :
  pending (done err s).1 = pending s.
Proof. unfold done. handler_cases; reflexivity. Qed.

Lemma emit_error_pending (err : jsval) (s : session) :
  pending (emit_error err s).1 = pending s.
Proof. unfold emit_error. destruct (listening s); [apply done_pending|reflexivity]. Qed.

Lemma respond_settled_repeat_fields (o : settle) (w : list nat) (s : session) :
  uploadResult (foldl (fun s _ => respond_settled o s) s w) = uploadResult s
  /\ uploads (foldl (fun s _ => respond_settled o s) s w) = uploads s.
Proof.
  revert s. induction w as [|q w IH]; intros s; simpl; [auto|].
  destruct (IH (respond_settled o s)) as [-> ->]. destruct o; auto.
Qed.

(** Before the parser finishes nothing waits for a promise, and
    [uploadResult] is the promise of the upload started last. *)
Lemma step_before_finish (s : session) (e : event) :
  is_finish e = false ->
  pending s = [] /\ tracks_latest s ->
  pending (step URL s e) = [] /\ tracks_latest (step URL s e).
Proof.
  intros Hnf [Hp Ht]. unfold tracks_latest in *.
  destruct e as [f m| |err|err| |p o]; simpl in *; try discriminate.
  - destruct (listening s); [|auto]. unfold on_file. revert Ht.
    handler_cases; simpl in *; intros Ht; (split; [exact Hp|]); congruence.
  - case_bool_decide; [|auto].
    destruct (listening s) eqn:Hl;
      [rewrite (on_limit_listening _ Hl)|rewrite (on_limit_deaf _ Hl)]; simpl; auto.
  - case_bool_decide; [|auto]. rewrite emit_error_pending.
    destruct (emit_error_fields err s) as [-> ->]. auto.
  - rewrite emit_error_pending.
    destruct (emit_error_fields err s) as [-> ->]. auto.
  - unfold on_settle.
    destruct (bool_decide (p < uploads s) && bool_decide (settled s !! p = None));
      [|auto].
    match goal with
    | |- context [run_handlers o ?w ?s1] =>
        destruct (run_handlers_foldl o w s1) as (_ & -> & _ & -> & -> & _);
        destruct (respond_settled_repeat o w s1) as [_ ->];
        destruct (respond_settled_repeat_fields o w s1) as [-> ->]
    end.
    simpl. rewrite Hp. auto.
Qed.

Lemma run_before_finish (events : list event) (s : session) :
  forallb (fun e => negb (is_finish e)) events = true ->
  pending s = [] /\ tracks_latest s ->
  pending (run URL s events) = [] /\ tracks_latest (run URL s events).
Proof.
  revert s. induction events as [|e events IH]; intros s Hnf Hs; [exact Hs|].
  simpl in Hnf. apply andb_prop in Hnf as [He Hrest].
  apply (IH (step URL s e) Hrest), step_before_finish; [|exact Hs].
  apply negb_true_iff, He.
Qed.

(** X13: when a body has several file parts, only the upload started last
    is reported: once the parser has finished, the settling of any earlier
    upload makes no call on the response or any other collaborator; when it
    is a rejection, no handler is attached to that promise and the runtime
    raises it as an unhandled rejection. *)
Theorem earlier_uploads_never_reported (ep : jsval) (padId uuid : string)
    (s0 : session) (events : list event) (p : nat) (o : settle) :
  post_upload ep padId CtorOk uuid = HSession s0 ->
  forallb (fun e => negb (is_finish e)) events = true ->
  S p < uploads (run URL s0 events) ->
  let finished := run URL s0 (events ++ [EvFinish]) in
  let later := run URL s0 (events ++ [EvFinish; EvSettle p o]) in
  log later = log finished
  /\ unhandled later
     = unhandled finished ++
       match o, settled finished !! p with
       | Rejected err, None => [err]
       | _, _ => []
       end.
Proof.
  intros Hpost Hnf Hp.
  destruct (post_upload_session _ _ _ _ _ Hpost) as (x & m & b & st & -> & _).
  set (s0 := new_session ep padId uuid [ENewUploader x m b st; ENewBusboy m; EPipe]) in *.
  destruct (run_before_finish events s0 Hnf (conj eq_refl eq_refl)) as [Hpend Hlatest].
  unfold run in *. rewrite !foldl_app. simpl.
  set (s := foldl (step URL) s0 events) in *.
  set (s' := if listening s then on_finish s else s).
  assert (Hfin : uploads s' = uploads s
                 /\ (pending s' = []
                     \/ exists q, pending s' = [q] /\ S q = uploads s)).
  { unfold s'. destruct (listening s); [|auto]. unfold on_finish, tracks_latest in *.
    destruct (uploadResult s) as [q|]; [|auto].
    destruct (settled s !! q) as [o'|].
    - destruct o'; auto.
    - split; [reflexivity|]. right. exists q. simpl. rewrite Hpend. auto. }
  destruct Hfin as [Hup Hfin].
  assert (Hwait : List.filter (Nat.eqb p) (pending s') = []).
  { destruct Hfin as [->|(q & -> & Hq)]; [reflexivity|]. simpl.
    destruct (Nat.eqb_spec p q) as [->|_]; [lia|reflexivity]. }
  unfold on_settle. rewrite Hwait, Hup.
  rewrite (bool_decide_eq_true_2 (p < uploads s)) by lia. simpl.
  destruct (settled s' !! p) as [o'|] eqn:Hset.
  - rewrite bool_decide_eq_false_2 by discriminate.
    split; [reflexivity|]. destruct o; symmetry; apply app_nil_r.
  - rewrite bool_decide_eq_true_2 by reflexivity.
    destruct o; simpl; split; try reflexivity. symmetry. apply app_nil_r.
Qed.

End Requests.

Lemma bucket_upload_answered_witness :
  log (run Url.http_resolve (opened s3_settings)
         (multipart_events (JNum 1000) [("photo.gif", "image/gif", 500%Z)]
          ++ [EvSettle 0 (Fulfilled stored)]))
  = log (opened s3_settings) ++
    [EUpload 0 (JStr "image/gif") (Path.join pad (id +:+ Path.extname "photo.gif"));
     ERespond (JNum 201) stored].
Proof.
  apply (bucket_upload_answered Url.http_resolve s3_settings pad id (opened s3_settings)
           "photo.gif" "image/gif" 500%Z 1000%Z (Fulfilled stored)).
  - reflexivity.
  - reflexivity.
  - lia.
Defined.

Lemma local_upload_answered_with_url_witness :
  log (run Url.http_resolve (opened (local_settings "http://x/files/"))
         [EvFile (JStr "photo.png") (JStr "image/png"); EvFinish;
          EvSettle 0 (Fulfilled stored)])
  = log (opened (local_settings "http://x/files/")) ++
    [EUpload 0 (JStr "image/png")
       (Path.join "/tmp/up" (Path.join pad (id +:+ Path.extname "photo.png")));
     ERespond (JNum 201)
       (JUrl "http://x/files/pad1/110ec58a-a0f2-4ac4-8393-c866d813b8d1.png")].
Proof.
  apply (local_upload_answered_with_url Url.http_resolve
           (local_settings "http://x/files/") pad id
           (opened (local_settings "http://x/files/"))
           "photo.png" "http://x/files/" "/tmp/up"
           "http://x/files/pad1/110ec58a-a0f2-4ac4-8393-c866d813b8d1.png"
           (JStr "image/png") stored).
  - reflexivity.
  - reflexivity.
  - reflexivity.
  - reflexivity.
  - vm_compute. reflexivity.
Defined.

Lemma earlier_uploads_never_reported_witness :
  let finished :=
    run Url.http_resolve (opened s3_settings) ([photo; second_photo] ++ [EvFinish]) in
  let later :=
    run Url.http_resolve (opened s3_settings)
      ([photo; second_photo] ++ [EvFinish; EvSettle 0 (Rejected access_denied)]) in
  log later = log finished
  /\ unhandled later
     = unhandled finished ++
       match Rejected access_denied, settled finished !! 0 with
       | Rejected err, None => [err]
       | _, _ => []
       end.
Proof.
  apply (earlier_uploads_never_reported Url.http_resolve s3_settings pad id
           (opened s3_settings) [photo; second_photo] 0 (Rejected access_denied)).
  - reflexivity.
  - reflexivity.
  - vm_compute. lia.
Defined.

(** ** Missing settings *)

(** X16: on an installation without plugin settings every upload request
    throws a TypeError before anything is built or answered, both before
    the [clientVars] hook has run (the settings are falsy) and after it
    has replaced them by an empty object. *)
Theorem missing_settings_always_throw (mimetypes ep : jsval) (padId uuid : string)
    (ctor : parser_ctor) :
  truthy ep = false ->
  (exists what, post_upload ep padId ctor uuid = HThrow (TypeError what) [])
  /\ (exists what,
        post_upload (clientVars mimetypes ep).1 padId ctor uuid
        = HThrow (TypeError what) []).
Proof.
  intros Hfalsy. split.
  - destruct ep; simpl in Hfalsy; try discriminate; eexists; reflexivity.
  - unfold clientVars. rewrite Hfalsy. simpl. eexists. reflexivity.
Qed.

Lemma missing_settings_always_throw_witness :
  (exists what, post_upload JUndefined pad CtorOk id = HThrow (TypeError what) [])
  /\ (exists what,
        post_upload (clientVars (JObj ∅) JUndefined).1 pad CtorOk id
        = HThrow (TypeError what) []).
Proof.
  apply (missing_settings_always_throw (JObj ∅) JUndefined pad id CtorOk).
  reflexivity.
Defined.
